(** * A fixed-size, separately chained hash table (Code/hashtable.py)

    The table is a Python list of buckets used as a fixed-size array; every
    bucket is a [LinkedList] of (key, value) tuples.  Methods mutate the
    buckets in place and signal failure by raising, so the embedding is a
    state-and-exception monad over the table: a method maps the table before
    the call to an outcome (a returned value or a raised exception) together
    with the table after the call.  A bucket obtained from [get_bucket] is a
    reference into the table; it is modelled by its position in [buckets],
    and the linked-list methods called on it read and write that position. *)

From Stdlib Require Import ZArith Lia Ascii.
From stdpp Require Import base decidable option list strings pretty.

Local Open Scope Z_scope.

(** ** Exceptions and outcomes *)

(** [KeyError] is raised by hashtable.py itself; [ValueNotFound] is the
    lookup error of the linked list; [ZeroDivisionError] and [IndexError]
    are what the interpreter raises for [%] by zero and for a subscript
    out of range. *)
Inductive exn : Type :=
  | KeyError
  | ValueNotFound
  | ZeroDivisionError
  | IndexError.

Inductive result (A : Type) : Type :=
  | Ok (a : A)
  | Raise (e : exn).
Arguments Ok {A} a.
Arguments Raise {A} e.

(** ** The linked list of entries *)

Module LinkedList.
Section chain.
Context {K V : Type} `{!EqDecision K, !EqDecision V}.

(** Modelled from the spec: linkedlist.py (class LinkedList, imported on
    line 3 of hashtable.py) is missing; section 4.1 describes a chain as an
    ordered sequence of entries in insertion order, created empty. *)
Definition empty : list (K * V) := [].

(** Modelled from the spec: linkedlist.py is missing; [append] adds the
    entry at the tail and always succeeds. *)
Definition append (e : K * V) (c : list (K * V)) : list (K * V) := c ++ [e].

(** Modelled from the spec: linkedlist.py is missing; [delete] removes the
    first entry equal (on the full pair) to the given one and fails with
    ValueNotFound when there is none. *)
Fixpoint delete (e : K * V) (c : list (K * V)) : result (list (K * V)) :=
  match c with
  | [] => Raise ValueNotFound
  | x :: r =>
      if decide (x = e) then Ok r
      else match delete e r with
           | Ok r' => Ok (x :: r')
           | Raise err => Raise err
           end
  end.

(** Modelled from the spec: linkedlist.py is missing; [items] produces all
    pairs in insertion order, as a fresh sequence on each call. *)
Definition items (c : list (K * V)) : list (K * V) := c.

(** Modelled from the spec: linkedlist.py is missing; [length] counts the
    entries of the chain. *)
Definition length (c : list (K * V)) : Z := Z.of_nat (List.length c).
End chain.
End LinkedList.

(** ** String formatting *)

(** [sep.join(parts)]. *)
Fixpoint str_join (sep : string) (parts : list string) : string :=
  match parts with
  | [] => ""
  | part :: rest =>
      match rest with
      | [] => part
      | _ :: _ => part +:+ sep +:+ str_join sep rest
      end
  end.

(** [str] and [repr] of an [int]: its decimal digits, with a minus sign
    when negative. *)
Definition str_int (n : Z) : string := pretty n.


(** ** The hash table *)

Module HashTable.
Section table.
Context {K V : Type} `{!EqDecision K, !EqDecision V}.
(** Python's built-in [hash] on the key type: any deterministic function. *)
Variable hash : K → Z.

Record t : Type := mk { buckets : list (list (K * V)) }.

(** A method body: table before ↦ (outcome, table after). *)
Definition M (A : Type) : Type := t → result A * t.

Definition raise {A} (e : exn) : M A := λ ht, (Raise e, ht).

#[global] Instance M_ret : MRet M := λ A a ht, (Ok a, ht).
#[global] Instance M_bind : MBind M := λ A B f m ht,
  match m ht with
  | (Ok a, ht') => f a ht'
  | (Raise e, ht') => (Raise e, ht')
  end.

(** [for x in xs: body x], with no [break] and no [return] in the body. *)
Fixpoint for_each {A} (xs : list A) (body : A → M unit) : M unit :=
  match xs with
  | [] => mret tt
  | x :: r => body x ;; for_each r body
  end.

(** *** References to buckets *)

Definition deref (b : nat) : M (list (K * V)) :=
  λ ht, match buckets ht !! b with
        | Some c => (Ok c, ht)
        | None => (Raise IndexError, ht)
        end.

Definition assign (b : nat) (c : list (K * V)) : M unit :=
  λ ht, (Ok tt, mk (<[b := c]> (buckets ht))).

(** [bucket.items()], [bucket.append(e)], [bucket.delete(e)] on the bucket
    at position [b]. *)
Definition bucket_items (b : nat) : M (list (K * V)) :=
  c ← deref b; mret (LinkedList.items c).

Definition bucket_append (b : nat) (e : K * V) : M unit :=
  c ← deref b; assign b (LinkedList.append e c).

Definition bucket_delete (b : nat) (e : K * V) : M unit :=
  c ← deref b;
  match LinkedList.delete e c with
  | Ok c' => assign b c'
  | Raise err => raise err
  end.

(** *** Methods of class HashTable *)

(** [self.buckets = [LinkedList() for _ in range(init_size)]]: [range] of
    a non-positive integer is empty. *)
Definition __init__ (init_size : Z) : result t :=
  Ok (mk (replicate (Z.to_nat init_size) LinkedList.empty)).

(** [hash(key) % len(self.buckets)]; Python's [%] takes the sign of the
    divisor, as [Z.modulo] does, and raises on a zero divisor. *)
Definition _bucket_index (key : K) : M Z :=
  λ ht, let n := Z.of_nat (List.length (buckets ht)) in
        if decide (n = 0) then (Raise ZeroDivisionError, ht)
        else (Ok (hash key `mod` n), ht).

(** [self.buckets[i]]: a negative subscript counts from the end. *)
Definition subscript (i : Z) : M nat :=
  λ ht, let n := Z.of_nat (List.length (buckets ht)) in
        if decide (0 ≤ i < n) then (Ok (Z.to_nat i), ht)
        else if decide (- n ≤ i < 0) then (Ok (Z.to_nat (n + i)), ht)
        else (Raise IndexError, ht).

Definition get_bucket (key : K) : M nat :=
  i ← _bucket_index key; subscript i.

(** The [for] loops of [keys], [values], [items] and [length] only read. *)
Definition keys : M (list K) :=
  λ ht, (Ok (foldl (λ all_keys bucket,
               foldl (λ acc '(key, _), acc ++ [key])
                     all_keys (LinkedList.items bucket))
             [] (buckets ht)), ht).

Definition values : M (list V) :=
  λ ht, (Ok (foldl (λ all_values bucket,
               foldl (λ acc '(_, value), acc ++ [value])
                     all_values (LinkedList.items bucket))
             [] (buckets ht)), ht).

Definition items : M (list (K * V)) :=
  λ ht, (Ok (foldl (λ all_items bucket, all_items ++ LinkedList.items bucket)
             [] (buckets ht)), ht).

Definition length : M Z :=
  λ ht, (Ok (foldl (λ size bucket, size + LinkedList.length bucket)
             0 (buckets ht)), ht).

(** The scan of [contains]: [return True] at the first equal key. *)
Fixpoint contains_scan (key : K) (its : list (K * V)) : bool :=
  match its with
  | [] => false
  | (current_key, _) :: r =>
      if decide (current_key = key) then true else contains_scan key r
  end.

Definition contains (key : K) : M bool :=
  bucket ← get_bucket key;
  its ← bucket_items bucket;
  mret (contains_scan key its).

(** The scan of [get]: [return value] at the first equal key, [KeyError]
    after the loop. *)
Fixpoint get_scan (key : K) (its : list (K * V)) : result V :=
  match its with
  | [] => Raise KeyError
  | (current_key, value) :: r =>
      if decide (current_key = key) then Ok value else get_scan key r
  end.

Definition get (key : K) : M V :=
  bucket ← get_bucket key;
  its ← bucket_items bucket;
  match get_scan key its with
  | Ok value => mret value
  | Raise err => raise err
  end.

Definition set_body (bucket : nat) (key : K) (value : V) : K * V → M unit :=
  λ '(current_key, current_value),
    if decide (current_key = key) then
      bucket_delete bucket (current_key, current_value);;
      bucket_append bucket (key, value)
    else mret tt.

Definition set (key : K) (value : V) : M unit :=
  bucket ← get_bucket key;
  present ← contains key;
  if present : bool then
    its ← bucket_items bucket;
    for_each its (set_body bucket key value)
  else bucket_append bucket (key, value).

Definition delete_body (bucket : nat) (key : K) : K * V → M unit :=
  λ '(current_key, value),
    if decide (current_key = key) then
      bucket_delete bucket (current_key, value)
    else mret tt.

Definition delete (key : K) : M unit :=
  bucket ← get_bucket key;
  present ← contains key;
  if present : bool then
    its ← bucket_items bucket;
    for_each its (delete_body bucket key)
  else raise KeyError.

(** *** Text forms *)

(** Python's [repr] on the key type and on the value type: any functions. *)
Variable repr_key : K → string.
Variable repr_value : V → string.

(** ['{!r}: {!r}'.format(key, val)] for each item, joined by [', '] between
    braces. *)
Definition __str__ : M string :=
  its ← items;
  mret ("{"
        +:+ str_join ", "
              ((λ '(key, val), repr_key key +:+ ": " +:+ repr_value val)
                 <$> its)
        +:+ "}").

(** [repr] of a list of pairs: each pair between parentheses, the pairs
    joined by [', '] between brackets. *)
Definition repr_items (its : list (K * V)) : string :=
  "["
  +:+ str_join ", "
        ((λ '(key, val),
            "(" +:+ repr_key key +:+ ", " +:+ repr_value val +:+ ")")
           <$> its)
  +:+ "]".

(** ['HashTable({!r})'.format(self.items())]. *)
Definition __repr__ : M string :=
  its ← items; mret ("HashTable(" +:+ repr_items its +:+ ")").
End table.

Arguments t : clear implicits.
Arguments M : clear implicits.
End HashTable.

(** ** Python's hash on small integers: a concrete key type *)

(** CPython hashes an [int] to its value reduced modulo 2^61 - 1 with the
    sign kept, and never returns -1. *)
Definition int_hash (x : Z) : Z :=
  let h := Z.sgn x * (Z.abs x `mod` (2 ^ 61 - 1)) in
  if decide (h = -1) then -2 else h.

(** ** Running method calls in sequence *)

Section history.
Context {K V : Type} `{!EqDecision K, !EqDecision V}.
Variable hash : K → Z.

(** The two mutating methods. *)
Inductive op : Type :=
  | OpSet (key : K) (value : V)
  | OpDelete (key : K).

Definition call (o : op) : HashTable.M K V unit :=
  match o with
  | OpSet key value => HashTable.set hash key value
  | OpDelete key => HashTable.delete hash key
  end.

(** The table left by a sequence of calls, a raised exception being caught
    by the caller before the next call. *)
Definition run (ops : list op) (ht : HashTable.t K V) : HashTable.t K V :=
  foldl (λ ht o, (call o ht).2) ht ops.

(** The key's most recent call, if any, is a [set]. *)
Fixpoint last_set (key : K) (ops : list op) (live : bool) : bool :=
  match ops with
  | [] => live
  | OpSet k _ :: r => last_set key r (if decide (k = key) then true else live)
  | OpDelete k :: r => last_set key r (if decide (k = key) then false else live)
  end.

(** The keys a sequence of calls leaves in a table that held [acc]: a [set]
    adds its key unless it is there, a [delete] takes its key out. *)
Fixpoint live_keys (ops : list op) (acc : list K) : list K :=
  match ops with
  | [] => acc
  | OpSet k _ :: r =>
      live_keys r (if bool_decide (k ∈ acc) then acc else k :: acc)
  | OpDelete k :: r => live_keys r (filter (λ k', k' ≠ k) acc)
  end.

(** The position a key is routed to in a table of [n] buckets. *)
Definition slot (n : nat) (key : K) : nat :=
  Z.to_nat (hash key `mod` Z.of_nat n).

(** The entries of a chain stored under [key], and the other ones, both in
    chain order. *)
Definition matching (key : K) (c : list (K * V)) : list (K * V) :=
  filter (λ e, e.1 = key) c.
Definition others (key : K) (c : list (K * V)) : list (K * V) :=
  filter (λ e, e.1 ≠ key) c.

(** What the loop of [set] leaves in the key's bucket. *)
Definition set_chain (key : K) (value : V) (c : list (K * V))
    : list (K * V) :=
  if HashTable.contains_scan key c
  then others key c ++ replicate (List.length (matching key c)) (key, value)
  else c ++ [(key, value)].

(** All entries of the table, bucket after bucket. *)
Definition entries (ht : HashTable.t K V) : list (K * V) :=
  concat (HashTable.buckets ht).

(** Every entry sits in the bucket its key is routed to. *)
Definition well_placed (ht : HashTable.t K V) : Prop :=
  ∀ i c e, HashTable.buckets ht !! i = Some c → e ∈ c →
           slot (List.length (HashTable.buckets ht)) e.1 = i.

(** The data-model invariant: one entry per key over all chains, each in
    the bucket of its key. *)
Definition invariant (ht : HashTable.t K V) : Prop :=
  NoDup (entries ht).*1 ∧ well_placed ht.

(** The outcome of [get] on a key bound to [o]. *)
Definition lookup_outcome (o : option V) : result V :=
  match o with
  | Some value => Ok value
  | None => Raise KeyError
  end.

(** The value a sequence of calls leaves under [key]: that of its latest
    [set], unless a [delete] of the key came after it. *)
Fixpoint last_value (key : K) (ops : list op) (cur : option V) : option V :=
  match ops with
  | [] => cur
  | OpSet k v :: r =>
      last_value key r (if decide (k = key) then Some v else cur)
  | OpDelete k :: r =>
      last_value key r (if decide (k = key) then None else cur)
  end.
End history.

Arguments op : clear implicits.

(** ** The self-test routine *)

Section self_test.
(** Python's [hash] and [repr] on [str]; the hash changes from one
    interpreter run to the next. *)
Variable hash : string → Z.
Variable repr_str : string → string.







End self_test.

(** ** A concrete run, on integer keys *)

(** The table [HashTable()] builds: eight empty buckets. *)
Definition demo_table : HashTable.t Z Z :=
  HashTable.mk (replicate 8 LinkedList.empty).

(** Keys 1, 9 and 17 share bucket 1; key -1 hashes to -2 and lands in
    bucket 6; the last call fails with KeyError. *)
Definition demo_calls : list (op Z Z) :=
  [OpSet 1 10; OpSet 9 90; OpSet 17 7; OpSet (-1) 5; OpDelete 17; OpDelete 3].

Definition demo_reached : HashTable.t Z Z := run int_hash demo_calls demo_table.

(** ** Basic facts about the monad and the chain operations *)

Section proofs.
Context {K V : Type} `{!EqDecision K, !EqDecision V}.
Variable hash : K → Z.

Abbreviation table := (HashTable.t K V).
Abbreviation chain := (list (K * V)).
Implicit Types (ht : table) (c its pre : chain) (e : K * V) (key k : K)
  (value v : V) (b : nat).

Lemma bind_ok {A B} (m : HashTable.M K V A) (f : A → HashTable.M K V B)
    ht a ht' :
  m ht = (Ok a, ht') → (m ≫= f) ht = f a ht'.
Proof. intros H. unfold mbind, HashTable.M_bind. by rewrite H. Qed.

Lemma bind_raise {A B} (m : HashTable.M K V A) (f : A → HashTable.M K V B)
    ht x ht' :
  m ht = (Raise x, ht') → (m ≫= f) ht = (Raise x, ht').
Proof. intros H. unfold mbind, HashTable.M_bind. by rewrite H. Qed.

Lemma slot_lt n key : (0 < n)%nat → (slot hash n key < n)%nat.
Proof.
  intros Hn. unfold slot.
  pose proof (Z.mod_pos_bound (hash key) (Z.of_nat n)). lia.
Qed.

Lemma get_bucket_pos key ht :
  (0 < List.length (HashTable.buckets ht))%nat →
  HashTable.get_bucket hash key ht
  = (Ok (slot hash (List.length (HashTable.buckets ht)) key), ht).
Proof.
  intros Hn. unfold HashTable.get_bucket.
  erewrite bind_ok; last first.
  { unfold HashTable._bucket_index. cbv zeta.
    rewrite decide_False by lia. reflexivity. }
  unfold HashTable.subscript. cbv zeta.
  pose proof (Z.mod_pos_bound (hash key)
                (Z.of_nat (List.length (HashTable.buckets ht)))).
  rewrite decide_True by lia. reflexivity.
Qed.

Lemma get_bucket_zero key ht :
  HashTable.buckets ht = [] →
  HashTable.get_bucket hash key ht = (Raise ZeroDivisionError, ht).
Proof.
  intros Hn. unfold HashTable.get_bucket.
  apply bind_raise. unfold HashTable._bucket_index. by rewrite Hn.
Qed.

(** *** Chain-level facts *)

Lemma delete_first pre e c :
  e ∉ pre → LinkedList.delete e (pre ++ e :: c) = Ok (pre ++ c).
Proof.
  induction pre as [|x pre IH]; simpl; intros Hnot.
  - by rewrite decide_True.
  - apply not_elem_of_cons in Hnot as [Hne Hnot].
    rewrite decide_False by done. by rewrite IH.
Qed.

Lemma others_app key c1 c2 :
  others key (c1 ++ c2) = others key c1 ++ others key c2.
Proof. apply filter_app. Qed.

Lemma matching_app key c1 c2 :
  matching key (c1 ++ c2) = matching key c1 ++ matching key c2.
Proof. apply filter_app. Qed.

Lemma others_id key c : (∀ e, e ∈ c → e.1 ≠ key) → others key c = c.
Proof.
  induction c as [|x c IH]; intros H; [done|].
  unfold others in *. rewrite filter_cons_True by (apply H; left).
  f_equal. apply IH. intros e He. apply H. by right.
Qed.

Lemma matching_nil key c :
  (∀ e, e ∈ c → e.1 ≠ key) → matching key c = [].
Proof.
  induction c as [|x c IH]; intros H; [done|].
  unfold matching in *. rewrite filter_cons_False.
  - apply IH. intros e He. apply H. by right.
  - intros Heq. by apply (H x); [left|].
Qed.

Lemma others_spec key c e : e ∈ others key c ↔ e ∈ c ∧ e.1 ≠ key.
Proof. unfold others. rewrite list_elem_of_filter. tauto. Qed.

Lemma matching_spec key c e : e ∈ matching key c ↔ e ∈ c ∧ e.1 = key.
Proof. unfold matching. rewrite list_elem_of_filter. tauto. Qed.

Lemma contains_scan_spec key c :
  HashTable.contains_scan key c = true ↔ ∃ e, e ∈ c ∧ e.1 = key.
Proof.
  induction c as [|[k v] c IH]; simpl.
  - split; [done|]. intros (e & He & _). by apply elem_of_nil in He.
  - destruct (decide (k = key)) as [->|Hne].
    + split; [|done]. intros _. exists (key, v). split; [left|done].
    + rewrite IH. split.
      * intros (e & He & Hk). exists e. split; [by right|done].
      * intros (e & He & Hk). apply elem_of_cons in He as [->|He].
        -- done.
        -- by exists e.
Qed.

Lemma contains_scan_false key c :
  HashTable.contains_scan key c = false ↔ ∀ e, e ∈ c → e.1 ≠ key.
Proof.
  rewrite <- not_true_iff_false, contains_scan_spec. split.
  - intros H e He Hk. apply H. by exists e.
  - intros H (e & He & Hk). by apply (H e).
Qed.

(** *** The bucket primitives *)

Lemma table_eta ht : HashTable.mk (HashTable.buckets ht) = ht.
Proof. by destruct ht. Qed.

Lemma assign_id b c ht :
  HashTable.buckets ht !! b = Some c →
  HashTable.mk (<[b := c]> (HashTable.buckets ht)) = ht.
Proof. intros H. rewrite list_insert_id by done. apply table_eta. Qed.

Lemma bucket_items_eq b c ht :
  HashTable.buckets ht !! b = Some c →
  HashTable.bucket_items b ht = (Ok c, ht).
Proof.
  intros H. unfold HashTable.bucket_items.
  erewrite bind_ok; [reflexivity|]. unfold HashTable.deref. by rewrite H.
Qed.

Lemma bucket_append_eq b c e ht :
  HashTable.buckets ht !! b = Some c →
  HashTable.bucket_append b e ht
  = (Ok tt, HashTable.mk (<[b := c ++ [e]]> (HashTable.buckets ht))).
Proof.
  intros H. unfold HashTable.bucket_append.
  erewrite bind_ok; [reflexivity|]. unfold HashTable.deref. by rewrite H.
Qed.

Lemma bucket_delete_eq b c c' e ht :
  HashTable.buckets ht !! b = Some c →
  LinkedList.delete e c = Ok c' →
  HashTable.bucket_delete b e ht
  = (Ok tt, HashTable.mk (<[b := c']> (HashTable.buckets ht))).
Proof.
  intros H Hd. unfold HashTable.bucket_delete.
  erewrite bind_ok; [|unfold HashTable.deref; by rewrite H].
  by rewrite Hd.
Qed.

Lemma lookup_assign b c c' ht :
  HashTable.buckets ht !! b = Some c →
  HashTable.buckets (HashTable.mk (<[b := c']> (HashTable.buckets ht))) !! b
  = Some c'.
Proof.
  intros H. simpl. apply list_lookup_insert_eq. by eapply lookup_lt_Some.
Qed.

Lemma assign_assign b c1 c2 ht :
  HashTable.mk (<[b := c2]>
    (HashTable.buckets (HashTable.mk (<[b := c1]> (HashTable.buckets ht)))))
  = HashTable.mk (<[b := c2]> (HashTable.buckets ht)).
Proof. simpl. by rewrite list_insert_insert_eq. Qed.

(** *** The loops of [set] and [delete] *)

Lemma set_body_match b key value v :
  HashTable.set_body b key value (key, v)
  = (HashTable.bucket_delete b (key, v)
     ≫= λ _, HashTable.bucket_append b (key, value)).
Proof. unfold HashTable.set_body. by rewrite decide_True. Qed.

Lemma set_body_other b key value k v :
  k ≠ key → HashTable.set_body b key value (k, v) = mret tt.
Proof. intros H. unfold HashTable.set_body. by rewrite decide_False. Qed.

Lemma delete_body_match b key v :
  HashTable.delete_body b key (key, v)
  = HashTable.bucket_delete b (key, v).
Proof. unfold HashTable.delete_body. by rewrite decide_True. Qed.

Lemma delete_body_other b key k v :
  k ≠ key → HashTable.delete_body b key (k, v) = mret tt.
Proof. intros H. unfold HashTable.delete_body. by rewrite decide_False. Qed.

(** Entered with the not yet visited items [its] still in the bucket, after
    the kept entries [pre] and before the [j] entries appended so far, the
    loop of [set] leaves [pre], the other keys' entries of [its] and one
    more new entry for each matching item. *)
Lemma set_loop key value b its : ∀ pre j ht,
  (∀ e, e ∈ pre → e.1 ≠ key) →
  HashTable.buckets ht !! b
    = Some (pre ++ its ++ replicate j (key, value)) →
  HashTable.for_each its (HashTable.set_body b key value) ht
  = (Ok tt,
     HashTable.mk
       (<[b := pre ++ others key its
               ++ replicate (j + List.length (matching key its)) (key, value)]>
          (HashTable.buckets ht))).
Proof.
  induction its as [|[k v] its IH]; intros pre j ht Hpre Hb.
  - simpl. rewrite Nat.add_0_r. by rewrite assign_id.
  - cbn [HashTable.for_each].
    destruct (decide (k = key)) as [->|Hne].
    + rewrite set_body_match.
      change (pre ++ ((key, v) :: its) ++ replicate j (key, value))
        with (pre ++ (key, v) :: (its ++ replicate j (key, value))) in Hb.
      erewrite bind_ok; last first.
      { erewrite bind_ok; last first.
        { eapply bucket_delete_eq; [exact Hb|].
          apply delete_first. intros Hin. by apply (Hpre _ Hin). }
        eapply bucket_append_eq. by eapply lookup_assign. }
      rewrite assign_assign.
      erewrite (IH pre (S j)); [|done|]; last first.
      { erewrite lookup_assign by done.
        by rewrite replicate_S_end, !(assoc_L (++)). }
      rewrite assign_assign. do 3 f_equal.
      unfold others, matching.
      rewrite filter_cons_False by (intros H; by apply H).
      rewrite filter_cons_True by done. simpl. by rewrite Nat.add_succ_r.
    + rewrite set_body_other by done. erewrite bind_ok by reflexivity.
      erewrite (IH (pre ++ [(k, v)]) j); last first.
      { rewrite <- (assoc_L (++)). exact Hb. }
      { intros e [He| ->%list_elem_of_singleton]%elem_of_app; [auto|done]. }
      do 3 f_equal. unfold others, matching.
      rewrite filter_cons_True by done.
      rewrite filter_cons_False by done.
      by rewrite <- (assoc_L (++)).
Qed.

(** The loop of [delete] removes every matching item and keeps the rest. *)
Lemma delete_loop key b its : ∀ pre ht,
  (∀ e, e ∈ pre → e.1 ≠ key) →
  HashTable.buckets ht !! b = Some (pre ++ its) →
  HashTable.for_each its (HashTable.delete_body b key) ht
  = (Ok tt,
     HashTable.mk (<[b := pre ++ others key its]> (HashTable.buckets ht))).
Proof.
  induction its as [|[k v] its IH]; intros pre ht Hpre Hb.
  - simpl. by rewrite assign_id.
  - cbn [HashTable.for_each].
    destruct (decide (k = key)) as [->|Hne].
    + rewrite delete_body_match. erewrite bind_ok; last first.
      { eapply bucket_delete_eq; [exact Hb|].
        apply delete_first. intros Hin. by apply (Hpre _ Hin). }
      erewrite (IH pre); [|done|by eapply lookup_assign].
      rewrite assign_assign. do 3 f_equal.
      unfold others. by rewrite filter_cons_False by (intros H; by apply H).
    + rewrite delete_body_other by done. erewrite bind_ok by reflexivity.
      erewrite (IH (pre ++ [(k, v)])); last first.
      { rewrite <- (assoc_L (++)). exact Hb. }
      { intros e [He| ->%list_elem_of_singleton]%elem_of_app; [auto|done]. }
      do 3 f_equal. unfold others.
      rewrite filter_cons_True by done.
      by rewrite <- (assoc_L (++)).
Qed.

(** *** The methods on a table with at least one bucket *)

Lemma bucket_exists key ht :
  (0 < List.length (HashTable.buckets ht))%nat →
  ∃ c, HashTable.buckets ht
         !! slot hash (List.length (HashTable.buckets ht)) key = Some c.
Proof.
  intros Hn. apply lookup_lt_is_Some. by apply slot_lt.
Qed.

Section one_bucket.
Variables (ht : table) (key : K) (c : chain).
Hypothesis Hn : (0 < List.length (HashTable.buckets ht))%nat.
Hypothesis Hc :
  HashTable.buckets ht
    !! slot hash (List.length (HashTable.buckets ht)) key = Some c.

Lemma contains_eq :
  HashTable.contains hash key ht
  = (Ok (HashTable.contains_scan key c), ht).
Proof.
  unfold HashTable.contains.
  erewrite bind_ok by (by apply get_bucket_pos).
  by erewrite bind_ok by (by apply bucket_items_eq).
Qed.

Lemma get_eq :
  HashTable.get hash key ht = (HashTable.get_scan key c, ht).
Proof.
  unfold HashTable.get.
  erewrite bind_ok by (by apply get_bucket_pos).
  erewrite bind_ok by (by apply bucket_items_eq).
  by destruct (HashTable.get_scan key c).
Qed.

Lemma set_eq value :
  HashTable.set hash key value ht
  = (Ok tt,
     HashTable.mk
       (<[slot hash (List.length (HashTable.buckets ht)) key
          := set_chain key value c]> (HashTable.buckets ht))).
Proof.
  unfold HashTable.set, set_chain.
  erewrite bind_ok by (by apply get_bucket_pos).
  erewrite bind_ok by apply contains_eq.
  destruct (HashTable.contains_scan key c).
  - erewrite bind_ok by (by apply bucket_items_eq).
    unfold LinkedList.items.
    rewrite (set_loop key value _ c [] 0%nat ht); [done| |].
    + intros e He. by apply elem_of_nil in He.
    + simpl. by rewrite (right_id_L [] (++)).
  - by apply bucket_append_eq.
Qed.

Lemma delete_eq :
  HashTable.delete hash key ht
  = if HashTable.contains_scan key c
    then (Ok tt,
          HashTable.mk
            (<[slot hash (List.length (HashTable.buckets ht)) key
               := others key c]> (HashTable.buckets ht)))
    else (Raise KeyError, ht).
Proof.
  unfold HashTable.delete.
  erewrite bind_ok by (by apply get_bucket_pos).
  erewrite bind_ok by apply contains_eq.
  destruct (HashTable.contains_scan key c).
  - erewrite bind_ok by (by apply bucket_items_eq).
    unfold LinkedList.items.
    rewrite (delete_loop key _ c [] ht); [done| |done].
    intros e He. by apply elem_of_nil in He.
  - reflexivity.
Qed.
End one_bucket.

(** *** The methods on a table with no bucket *)

Section no_bucket.
Variables (ht : table) (key : K).
Hypothesis Hn : HashTable.buckets ht = [].

Lemma contains_zero :
  HashTable.contains hash key ht = (Raise ZeroDivisionError, ht).
Proof. apply bind_raise. by apply get_bucket_zero. Qed.

Lemma get_zero :
  HashTable.get hash key ht = (Raise ZeroDivisionError, ht).
Proof. apply bind_raise. by apply get_bucket_zero. Qed.

Lemma set_zero value :
  HashTable.set hash key value ht = (Raise ZeroDivisionError, ht).
Proof. apply bind_raise. by apply get_bucket_zero. Qed.

Lemma delete_zero :
  HashTable.delete hash key ht = (Raise ZeroDivisionError, ht).
Proof. apply bind_raise. by apply get_bucket_zero. Qed.
End no_bucket.

(** *** The scans in terms of the keys of a chain *)

Lemma contains_scan_decide key c :
  HashTable.contains_scan key c = bool_decide (key ∈ c.*1).
Proof.
  destruct (HashTable.contains_scan key c) eqn:Hs; symmetry.
  - apply bool_decide_eq_true. apply contains_scan_spec in Hs as (e & He & <-).
    by apply list_elem_of_fmap_2.
  - apply bool_decide_eq_false. intros (e & -> & He)%list_elem_of_fmap.
    by eapply contains_scan_false in Hs.
Qed.

Lemma get_scan_skip key pre c :
  (∀ e, e ∈ pre → e.1 ≠ key) →
  HashTable.get_scan key (pre ++ c) = HashTable.get_scan key c.
Proof.
  induction pre as [|[k v] pre IH]; intros H; [done|]. simpl.
  rewrite decide_False by (apply (H (k, v)); left).
  apply IH. intros e He. apply H. by right.
Qed.

Lemma get_scan_absent key c :
  HashTable.contains_scan key c = false →
  HashTable.get_scan key c = Raise KeyError.
Proof.
  intros H. rewrite <- (right_id_L [] (++) c).
  rewrite get_scan_skip; [done|]. by apply contains_scan_false.
Qed.

Lemma matching_nonempty key c :
  HashTable.contains_scan key c = true →
  (0 < List.length (matching key c))%nat.
Proof.
  intros (e & He & Hk)%contains_scan_spec.
  assert (e ∈ matching key c) as Hin by by apply matching_spec.
  destruct (matching key c); [by apply elem_of_nil in Hin|simpl; lia].
Qed.

Lemma set_chain_elem key value c e :
  e ∈ set_chain key value c → e ∈ c ∨ e = (key, value).
Proof.
  unfold set_chain. destruct (HashTable.contains_scan key c).
  - intros [He|He]%elem_of_app.
    + left. by apply others_spec in He as [? _].
    + right. by apply elem_of_replicate_inv in He.
  - intros [He|He%list_elem_of_singleton]%elem_of_app; auto.
Qed.

Lemma get_scan_set_chain key value c :
  HashTable.get_scan key (set_chain key value c) = Ok value.
Proof.
  unfold set_chain. destruct (HashTable.contains_scan key c) eqn:Hs.
  - rewrite get_scan_skip by (intros e He; by apply others_spec in He as [_ ?]).
    apply matching_nonempty in Hs.
    destruct (List.length (matching key c)); [lia|].
    simpl. by rewrite decide_True.
  - rewrite get_scan_skip by by apply contains_scan_false.
    simpl. by rewrite decide_True.
Qed.

Lemma fmap_set_chain key value c :
  (set_chain key value c).*1
  = (others key c).*1
    ++ replicate (Nat.max 1 (List.length (matching key c))) key.
Proof.
  unfold set_chain. destruct (HashTable.contains_scan key c) eqn:Hs.
  - apply matching_nonempty in Hs.
    rewrite fmap_app, fmap_replicate. simpl. do 2 f_equal. lia.
  - rewrite fmap_app.
    rewrite matching_nil, others_id by by apply contains_scan_false.
    done.
Qed.

Lemma contains_scan_set_chain key value k c :
  HashTable.contains_scan k (set_chain key value c)
  = if decide (key = k) then true else HashTable.contains_scan k c.
Proof.
  rewrite !contains_scan_decide, fmap_set_chain.
  destruct (decide (key = k)) as [->|Hne].
  - apply bool_decide_eq_true, elem_of_app. right.
    apply elem_of_replicate. split; [done|lia].
  - apply bool_decide_ext. rewrite elem_of_app, !list_elem_of_fmap. split.
    + intros [(e & -> & He)|He].
      * exists e. split; [done|]. by apply others_spec in He as [? _].
      * apply elem_of_replicate_inv in He. congruence.
    + intros (e & -> & He). left. exists e. split; [done|].
      apply others_spec. split; [done|]. congruence.
Qed.

Lemma contains_scan_others key k c :
  HashTable.contains_scan k (others key c)
  = if decide (key = k) then false else HashTable.contains_scan k c.
Proof.
  rewrite !contains_scan_decide.
  destruct (decide (key = k)) as [->|Hne].
  - apply bool_decide_eq_false. intros (e & -> & He)%list_elem_of_fmap.
    by apply others_spec in He as [_ ?].
  - apply bool_decide_ext. rewrite !list_elem_of_fmap. split.
    + intros (e & -> & He). exists e. split; [done|].
      by apply others_spec in He as [? _].
    + intros (e & -> & He). exists e. split; [done|].
      apply others_spec. split; [done|]. congruence.
Qed.

(** *** Results about single calls *)

Lemma length_buckets_assign b c ht :
  List.length
    (HashTable.buckets (HashTable.mk (<[b := c]> (HashTable.buckets ht))))
  = List.length (HashTable.buckets ht).
Proof. simpl. apply length_insert. Qed.

Lemma buckets_nil ht :
  ¬ (0 < List.length (HashTable.buckets ht))%nat → HashTable.buckets ht = [].
Proof. destruct (HashTable.buckets ht); simpl; [done|lia]. Qed.

Lemma lookup_slot_assign_eq key c c' ht :
  HashTable.buckets ht
    !! slot hash (List.length (HashTable.buckets ht)) key = Some c →
  let ht' := HashTable.mk
               (<[slot hash (List.length (HashTable.buckets ht)) key := c']>
                  (HashTable.buckets ht)) in
  HashTable.buckets ht'
    !! slot hash (List.length (HashTable.buckets ht')) key = Some c'.
Proof.
  intros Hc. simpl. rewrite length_insert.
  apply list_lookup_insert_eq. by eapply lookup_lt_Some.
Qed.

Lemma lookup_slot_assign_ne k b c' ht :
  slot hash (List.length (HashTable.buckets ht)) k ≠ b →
  let ht' := HashTable.mk (<[b := c']> (HashTable.buckets ht)) in
  HashTable.buckets ht'
    !! slot hash (List.length (HashTable.buckets ht')) k
  = HashTable.buckets ht
      !! slot hash (List.length (HashTable.buckets ht)) k.
Proof.
  intros Hne. simpl. rewrite length_insert.
  by apply list_lookup_insert_ne.
Qed.

(** What [set] does to a table with at least one bucket, with the bucket
    named. *)
Lemma set_result key value ht :
  (0 < List.length (HashTable.buckets ht))%nat →
  ∃ c, HashTable.buckets ht
         !! slot hash (List.length (HashTable.buckets ht)) key = Some c
     ∧ HashTable.set hash key value ht
       = (Ok tt,
          HashTable.mk
            (<[slot hash (List.length (HashTable.buckets ht)) key
               := set_chain key value c]> (HashTable.buckets ht))).
Proof.
  intros Hn. destruct (bucket_exists key ht Hn) as [c Hc].
  exists c. split; [done|]. by apply set_eq.
Qed.

(** The table left by [set], and what the two lookups find in it. *)
Lemma set_effect key value ht :
  (0 < List.length (HashTable.buckets ht))%nat →
  ∃ c ht',
    HashTable.buckets ht
      !! slot hash (List.length (HashTable.buckets ht)) key = Some c
    ∧ ht' = HashTable.mk
              (<[slot hash (List.length (HashTable.buckets ht)) key
                 := set_chain key value c]> (HashTable.buckets ht))
    ∧ HashTable.set hash key value ht = (Ok tt, ht')
    ∧ HashTable.get hash key ht' = (Ok value, ht')
    ∧ HashTable.contains hash key ht' = (Ok true, ht').
Proof.
  intros Hn. destruct (set_result key value ht Hn) as (c & Hc & Hset).
  eexists c, _. split; [done|]. split; [reflexivity|]. split; [exact Hset|].
  pose proof (lookup_slot_assign_eq key c (set_chain key value c) ht Hc)
    as Hc'.
  split.
  - erewrite get_eq; [|by rewrite length_buckets_assign|exact Hc'].
    by rewrite get_scan_set_chain.
  - erewrite contains_eq; [|by rewrite length_buckets_assign|exact Hc'].
    by rewrite contains_scan_set_chain, decide_True.
Qed.

(** C1: on a table with a positive bucket count, [set(K, V)] returns, and
    in the table it leaves [get(K)] returns [V] and [contains(K)] returns
    [True]. *)
Theorem set_then_get_contains key value ht :
  (0 < List.length (HashTable.buckets ht))%nat →
  ∃ ht', HashTable.set hash key value ht = (Ok tt, ht')
       ∧ HashTable.get hash key ht' = (Ok value, ht')
       ∧ HashTable.contains hash key ht' = (Ok true, ht').
Proof.
  intros Hn.
  destruct (set_effect key value ht Hn)
    as (c & ht' & _ & _ & Hset & Hget & Hcont).
  by exists ht'.
Qed.

(** C4: when [contains(K)] reports the key absent, [delete(K)] raises
    KeyError and leaves the table, hence also [length()], as it was. *)
Theorem delete_absent key ht :
  HashTable.contains hash key ht = (Ok false, ht) →
  HashTable.delete hash key ht = (Raise KeyError, ht)
  ∧ HashTable.length (HashTable.delete hash key ht).2 = HashTable.length ht.
Proof.
  intros Hcont.
  destruct (decide (0 < List.length (HashTable.buckets ht))%nat) as [Hn|Hn].
  - destruct (bucket_exists key ht Hn) as [c Hc].
    rewrite (contains_eq ht key c Hn Hc) in Hcont.
    rewrite (delete_eq ht key c Hn Hc).
    injection Hcont as ->. done.
  - apply buckets_nil in Hn.
    by rewrite (contains_zero ht key Hn) in Hcont.
Qed.

(** C9: [delete] never ends in the linked list's not-found error: it
    returns, or raises KeyError, or (on a table without buckets) raises
    ZeroDivisionError. *)
Theorem delete_never_value_not_found key ht :
  (HashTable.delete hash key ht).1 ≠ Raise ValueNotFound
  ∧ ((HashTable.delete hash key ht).1 = Ok tt
     ∨ (HashTable.delete hash key ht).1 = Raise KeyError
     ∨ (HashTable.delete hash key ht).1 = Raise ZeroDivisionError).
Proof.
  destruct (decide (0 < List.length (HashTable.buckets ht))%nat) as [Hn|Hn].
  - destruct (bucket_exists key ht Hn) as [c Hc].
    rewrite (delete_eq ht key c Hn Hc).
    destruct (HashTable.contains_scan key c); simpl; auto.
  - apply buckets_nil in Hn. rewrite (delete_zero ht key Hn). simpl. auto.
Qed.

(** C10: with [init_size <= 0] the constructor returns a table without
    buckets, on which every key-based method raises ZeroDivisionError (from
    [_bucket_index]) and changes nothing. *)
Theorem nonpositive_size_zero_buckets init_size :
  init_size ≤ 0 →
  ∃ ht, HashTable.__init__ init_size = Ok ht
      ∧ HashTable.buckets ht = []
      ∧ ∀ key value,
          HashTable._bucket_index hash key ht = (Raise ZeroDivisionError, ht)
          ∧ HashTable.get_bucket hash key ht = (Raise ZeroDivisionError, ht)
          ∧ HashTable.get hash key ht = (Raise ZeroDivisionError, ht)
          ∧ HashTable.set hash key value ht = (Raise ZeroDivisionError, ht)
          ∧ HashTable.contains hash key ht = (Raise ZeroDivisionError, ht)
          ∧ HashTable.delete hash key ht = (Raise ZeroDivisionError, ht).
Proof.
  intros Hle. eexists. split; [reflexivity|].
  assert (Z.to_nat init_size = 0%nat) as -> by lia.
  split; [done|]. intros key value.
  split; [done|].
  split; [by apply get_bucket_zero|].
  split; [by apply get_zero|].
  split; [by apply set_zero|].
  split; [by apply contains_zero|by apply delete_zero].
Qed.

(** C5 (amended): the constructor never fails and checks nothing: it
    allocates max(init_size, 0) chains, all empty; these are exactly
    [init_size] chains when [init_size > 0] and none otherwise. *)
Theorem init_allocates init_size :
  ∃ ht : table,
    HashTable.__init__ init_size = Ok ht
    ∧ Z.of_nat (List.length (HashTable.buckets ht)) = Z.max init_size 0
    ∧ ∀ c, c ∈ HashTable.buckets ht → c = [].
Proof.
  eexists. split; [reflexivity|]. simpl. split.
  - rewrite length_replicate. lia.
  - intros c Hc. by apply elem_of_replicate_inv in Hc.
Qed.

(** *** The traversals: [items], [keys], [length] *)

Lemma items_eq ht : HashTable.items ht = (Ok (entries ht), ht).
Proof.
  unfold HashTable.items, entries, LinkedList.items. do 2 f_equal.
  assert (∀ (bs : list chain) (acc : chain),
            foldl (λ all_items bucket, all_items ++ bucket) acc bs
            = acc ++ concat bs) as Houter; [|apply Houter].
  induction bs as [|c bs IH]; intros acc; simpl.
  - by rewrite (right_id_L [] (++)).
  - by rewrite IH, (assoc_L (++)).
Qed.

Lemma keys_eq ht : HashTable.keys ht = (Ok (entries ht).*1, ht).
Proof.
  unfold HashTable.keys, entries, LinkedList.items. do 2 f_equal.
  assert (∀ (its : chain) (acc : list K),
            foldl (λ acc '(key, _), acc ++ [key]) acc its = acc ++ its.*1)
    as Hinner.
  { induction its as [|[k v] its IH]; intros acc; simpl.
    - by rewrite (right_id_L [] (++)).
    - by rewrite IH, <- (assoc_L (++)). }
  assert (∀ (bs : list chain) (acc : list K),
            foldl (λ all_keys bucket,
                     foldl (λ acc '(key, _), acc ++ [key]) all_keys bucket)
                  acc bs
            = acc ++ (concat bs).*1) as Houter; [|apply Houter].
  induction bs as [|c bs IH]; intros acc; simpl.
  - by rewrite (right_id_L [] (++)).
  - by rewrite IH, Hinner, fmap_app, (assoc_L (++)).
Qed.

Lemma length_eq ht :
  HashTable.length ht = (Ok (Z.of_nat (List.length (entries ht))), ht).
Proof.
  unfold HashTable.length, entries, LinkedList.length. do 2 f_equal.
  assert (∀ (bs : list chain) (acc : Z),
            foldl (λ size bucket, size + Z.of_nat (List.length bucket)) acc bs
            = acc + Z.of_nat (List.length (concat bs))) as Houter;
    [|apply Houter].
  induction bs as [|c bs IH]; intros acc; simpl.
  - lia.
  - rewrite IH, length_app. lia.
Qed.

(** *** Entries of a table and of the table after one bucket changed *)

Lemma entries_lookup b c ht :
  HashTable.buckets ht !! b = Some c →
  entries ht
  = concat (take b (HashTable.buckets ht)) ++ c
    ++ concat (drop (S b) (HashTable.buckets ht)).
Proof.
  intros Hb. unfold entries.
  rewrite <- (take_drop_middle _ _ _ Hb) at 1.
  by rewrite concat_app, concat_cons.
Qed.

Lemma entries_assign b c c' ht :
  HashTable.buckets ht !! b = Some c →
  entries (HashTable.mk (<[b := c']> (HashTable.buckets ht)))
  = concat (take b (HashTable.buckets ht)) ++ c'
    ++ concat (drop (S b) (HashTable.buckets ht)).
Proof.
  intros Hb. unfold entries. simpl.
  rewrite insert_take_drop by by eapply lookup_lt_Some.
  by rewrite concat_app, concat_cons.
Qed.

Lemma elem_of_entries e ht :
  e ∈ entries ht ↔ ∃ i c, HashTable.buckets ht !! i = Some c ∧ e ∈ c.
Proof.
  unfold entries. induction (HashTable.buckets ht) as [|c0 bs IH]; simpl.
  - split; [by intros ?%elem_of_nil|]. by intros (i & c & ? & _).
  - rewrite elem_of_app, IH. split.
    + intros [He|(i & c & Hi & He)].
      * by exists 0%nat, c0.
      * by exists (S i), c.
    + intros ([|i] & c & Hi & He); simpl in Hi.
      * left. congruence.
      * right. by exists i, c.
Qed.

(** In a table whose entries are well placed, a key occurs in the table
    exactly when it occurs in the bucket it is routed to. *)
Lemma key_in_entries key c ht :
  well_placed hash ht →
  HashTable.buckets ht
    !! slot hash (List.length (HashTable.buckets ht)) key = Some c →
  key ∈ (entries ht).*1 ↔ key ∈ c.*1.
Proof.
  intros Hwp Hc. rewrite !list_elem_of_fmap. split.
  - intros (e & -> & (i & c0 & Hi & He)%elem_of_entries).
    exists e. split; [done|].
    rewrite (Hwp i c0 e Hi He) in Hc. congruence.
  - intros (e & -> & He). exists e. split; [done|].
    apply elem_of_entries. eauto.
Qed.

(** *** Keys of a chain, split by one key *)

Lemma fmap_partition key c :
  c.*1 ≡ₚ (others key c).*1 ++ replicate (List.length (matching key c)) key.
Proof.
  unfold others, matching. induction c as [|[k v] c IH]; [done|].
  destruct (decide (k = key)) as [->|Hne].
  - rewrite filter_cons_False by (intros H; by apply H).
    rewrite filter_cons_True by done. simpl.
    rewrite <- Permutation_middle. by constructor.
  - rewrite filter_cons_True by done.
    rewrite filter_cons_False by done. simpl. by constructor.
Qed.

Lemma length_partition key c :
  (List.length (others key c) + List.length (matching key c))%nat
  = List.length c.
Proof.
  rewrite <- (length_fmap fst c), (fmap_partition key c).
  by rewrite length_app, length_fmap, length_replicate.
Qed.

Lemma matching_one key c :
  NoDup c.*1 → key ∈ c.*1 → List.length (matching key c) = 1%nat.
Proof.
  intros Hnd Hin. rewrite (fmap_partition key c) in Hnd.
  apply NoDup_app in Hnd as (_ & _ & Hrep).
  assert (HashTable.contains_scan key c = true) as Hs
    by (rewrite contains_scan_decide; by apply bool_decide_eq_true).
  apply matching_nonempty in Hs.
  destruct (List.length (matching key c)) as [|[|n]]; [lia|done|].
  simpl in Hrep. apply NoDup_cons in Hrep as [Hnot _].
  exfalso. apply Hnot. left.
Qed.

(** *** One call of [set] or [delete] and the invariant *)

Lemma set_step key value ht :
  (0 < List.length (HashTable.buckets ht))%nat →
  invariant hash ht →
  ∃ ht', HashTable.set hash key value ht = (Ok tt, ht')
       ∧ List.length (HashTable.buckets ht')
         = List.length (HashTable.buckets ht)
       ∧ invariant hash ht'
       ∧ (entries ht').*1
         ≡ₚ (if bool_decide (key ∈ (entries ht).*1) then [] else [key])
            ++ (entries ht).*1.
Proof.
  intros Hn [Hnd Hwp]. destruct (set_result key value ht Hn) as (c & Hc & Hset).
  eexists. split; [exact Hset|]. split; [apply length_buckets_assign|].
  assert ((entries (HashTable.mk
             (<[slot hash (List.length (HashTable.buckets ht)) key
                := set_chain key value c]> (HashTable.buckets ht)))).*1
          ≡ₚ (if bool_decide (key ∈ (entries ht).*1) then [] else [key])
             ++ (entries ht).*1) as Hperm.
  { pose proof (key_in_entries key c ht Hwp Hc) as Hkey.
    case_bool_decide as Hin; rewrite Hkey in Hin;
      rewrite (entries_assign _ c), (entries_lookup _ c ht) by done;
      rewrite !fmap_app, fmap_set_chain.
    - rewrite (fmap_partition key c) at 1.
      assert (HashTable.contains_scan key c = true) as Hs
        by (rewrite contains_scan_decide; by apply bool_decide_eq_true).
      apply matching_nonempty in Hs.
      replace (Nat.max 1 (List.length (matching key c)))
        with (List.length (matching key c)) by lia.
      done.
    - assert (HashTable.contains_scan key c = false) as Hs
        by (rewrite contains_scan_decide; by apply bool_decide_eq_false).
      rewrite matching_nil, others_id by by apply contains_scan_false.
      simpl. solve_Permutation. }
  split; [|exact Hperm]. split.
  - rewrite Hperm. case_bool_decide as Hin; [done|].
    simpl. by apply NoDup_cons.
  - intros i c0 e Hi He. rewrite length_buckets_assign. simpl in Hi.
    apply list_lookup_insert_Some in Hi as [(<- & <- & _)|(Hne & Hi)].
    + apply set_chain_elem in He as [He| ->]; [|done].
      by apply (Hwp _ c e).
    + by apply (Hwp _ c0 e).
Qed.

Lemma delete_step key ht :
  (0 < List.length (HashTable.buckets ht))%nat →
  invariant hash ht →
  List.length (HashTable.buckets (HashTable.delete hash key ht).2)
  = List.length (HashTable.buckets ht)
  ∧ invariant hash (HashTable.delete hash key ht).2
  ∧ if bool_decide (key ∈ (entries ht).*1)
    then (HashTable.delete hash key ht).1 = Ok tt
         ∧ (entries ht).*1
           ≡ₚ key :: (entries (HashTable.delete hash key ht).2).*1
    else HashTable.delete hash key ht = (Raise KeyError, ht).
Proof.
  intros Hn [Hnd Hwp]. destruct (bucket_exists key ht Hn) as [c Hc].
  rewrite (delete_eq ht key c Hn Hc).
  pose proof (key_in_entries key c ht Hwp Hc) as Hkey.
  rewrite contains_scan_decide.
  case_bool_decide as Hin.
  - rewrite bool_decide_eq_true_2 by by apply Hkey.
    cbn [fst snd]. split; [apply length_buckets_assign|].
    assert ((entries ht).*1
            ≡ₚ key :: (entries (HashTable.mk
                 (<[slot hash (List.length (HashTable.buckets ht)) key
                    := others key c]> (HashTable.buckets ht)))).*1)
      as Hperm.
    { rewrite (entries_assign _ c) by done.
      rewrite (entries_lookup _ c ht) by done.
      rewrite !fmap_app. rewrite (fmap_partition key c) at 1.
      rewrite (matching_one key c).
      - simpl. solve_Permutation.
      - rewrite (entries_lookup _ c ht), !fmap_app in Hnd by done.
        apply NoDup_app in Hnd as (_ & _ & Hnd).
        by apply NoDup_app in Hnd as (Hnd & _).
      - done. }
    split; [|done]. split.
    + rewrite Hperm in Hnd. by apply NoDup_cons in Hnd as [_ ?].
    + intros i c0 e Hi He. rewrite length_buckets_assign. simpl in Hi.
      apply list_lookup_insert_Some in Hi as [(<- & <- & _)|(Hne & Hi)].
      * apply others_spec in He as [He _]. by apply (Hwp _ c e).
      * by apply (Hwp _ c0 e).
  - rewrite bool_decide_eq_false_2 by (by rewrite Hkey).
    done.
Qed.

Lemma call_invariant o ht :
  invariant hash ht →
  List.length (HashTable.buckets (call hash o ht).2)
  = List.length (HashTable.buckets ht)
  ∧ invariant hash (call hash o ht).2.
Proof.
  intros Hinv.
  destruct (decide (0 < List.length (HashTable.buckets ht))%nat) as [Hn|Hn].
  - destruct o as [key value|key]; simpl.
    + destruct (set_step key value ht Hn Hinv) as (ht' & -> & Hl & Hi & _).
      done.
    + by destruct (delete_step key ht Hn Hinv) as (Hl & Hi & _).
  - apply buckets_nil in Hn. destruct o as [key value|key]; simpl.
    + by rewrite set_zero.
    + by rewrite delete_zero.
Qed.

Lemma run_invariant ops : ∀ ht,
  invariant hash ht →
  List.length (HashTable.buckets (run hash ops ht))
  = List.length (HashTable.buckets ht)
  ∧ invariant hash (run hash ops ht).
Proof.
  induction ops as [|o ops IH]; intros ht Hinv; [done|]. simpl.
  destruct (call_invariant o ht Hinv) as [Hl Hinv'].
  destruct (IH _ Hinv') as [Hl' Hinv'']. split; [congruence|done].
Qed.

Lemma init_invariant init_size ht :
  HashTable.__init__ init_size = Ok ht → invariant hash ht.
Proof.
  intros [= <-].
  assert (∀ n, concat (replicate n (@LinkedList.empty K V)) = []) as Hnil
    by (induction n; simpl; auto).
  split.
  - unfold entries. simpl. rewrite Hnil. constructor.
  - intros i c e Hi He. simpl in Hi.
    apply lookup_replicate in Hi as [-> _]. by apply elem_of_nil in He.
Qed.

(** *** Reachable tables hold one entry per key *)

(** C2: in every table reached from a freshly constructed one by any
    sequence of [set] and [delete] calls (failed calls included), the keys
    listed by [keys()], which walks all chains, are pairwise distinct. *)
Theorem one_entry_per_key init_size ht0 (ops : list (op K V)) :
  HashTable.__init__ init_size = Ok ht0 →
  ∃ ks, HashTable.keys (run hash ops ht0) = (Ok ks, run hash ops ht0)
      ∧ NoDup ks.
Proof.
  intros Hinit. eexists. split; [apply keys_eq|].
  apply init_invariant in Hinit.
  by destruct (run_invariant ops ht0 Hinit) as [_ [Hnd _]].
Qed.

(** *** Updating a present key moves its entry to the tail *)

Lemma set_chain_unique key value c :
  NoDup c.*1 →
  HashTable.contains_scan key c = true →
  ∃ l1 old l2, c = l1 ++ (key, old) :: l2
             ∧ (key ∉ (l1 ++ l2).*1)
             ∧ set_chain key value c = l1 ++ l2 ++ [(key, value)].
Proof.
  intros Hnd Hs. unfold set_chain. rewrite Hs.
  apply contains_scan_spec in Hs as ([k old] & He & Hk). simpl in Hk. subst k.
  apply list_elem_of_split in He as (l1 & l2 & ->).
  rewrite fmap_app, fmap_cons in Hnd. simpl in Hnd.
  apply NoDup_app in Hnd as (_ & Hl1 & [Hl2 _]%NoDup_cons).
  assert (∀ e, e ∈ l1 → e.1 ≠ key) as Hl1'.
  { intros e He Hk. apply (Hl1 key); [|left].
    rewrite <- Hk. by apply list_elem_of_fmap_2. }
  assert (∀ e, e ∈ l2 → e.1 ≠ key) as Hl2'.
  { intros e He Hk. apply Hl2. rewrite <- Hk. by apply list_elem_of_fmap_2. }
  exists l1, old, l2. split; [done|]. split.
  - rewrite fmap_app. intros [(e & Hk & He)%list_elem_of_fmap
                            |(e & Hk & He)%list_elem_of_fmap]%elem_of_app.
    + by apply (Hl1' e).
    + by apply (Hl2' e).
  - rewrite others_app, matching_app. unfold others at 2, matching at 2.
    rewrite filter_cons_False by (intros H; by apply H).
    rewrite filter_cons_True by done.
    fold (others key l2). fold (matching key l2).
    rewrite !others_id, !matching_nil by done.
    by rewrite <- (assoc_L (++)).
Qed.

Lemma contains_inv key ht live :
  HashTable.contains hash key ht = (Ok live, ht) →
  (0 < List.length (HashTable.buckets ht))%nat
  ∧ ∃ c, HashTable.buckets ht
           !! slot hash (List.length (HashTable.buckets ht)) key = Some c
       ∧ HashTable.contains_scan key c = live.
Proof.
  intros Hcont.
  destruct (decide (0 < List.length (HashTable.buckets ht))%nat) as [Hn|Hn].
  - split; [done|]. destruct (bucket_exists key ht Hn) as [c Hc].
    exists c. split; [done|].
    rewrite (contains_eq ht key c Hn Hc) in Hcont. congruence.
  - apply buckets_nil in Hn.
    by rewrite (contains_zero ht key Hn) in Hcont.
Qed.

(** C8: in a reachable table, [set] on a present key takes the key's one
    entry out of its chain and puts the new entry last in that chain; on
    an absent key it appends the new entry to the chain. *)
Theorem set_moves_entry_to_tail init_size ht0 (ops : list (op K V))
    key value :
  HashTable.__init__ init_size = Ok ht0 →
  let ht := run hash ops ht0 in
  (HashTable.contains hash key ht = (Ok true, ht) →
   ∃ b l1 old l2,
     HashTable.buckets ht !! b = Some (l1 ++ (key, old) :: l2)
     ∧ (key ∉ (l1 ++ l2).*1)
     ∧ HashTable.set hash key value ht
       = (Ok tt,
          HashTable.mk (<[b := l1 ++ l2 ++ [(key, value)]]>
                          (HashTable.buckets ht))))
  ∧ (HashTable.contains hash key ht = (Ok false, ht) →
     ∃ b c,
       HashTable.buckets ht !! b = Some c
       ∧ (key ∉ c.*1)
       ∧ HashTable.set hash key value ht
         = (Ok tt,
            HashTable.mk (<[b := c ++ [(key, value)]]>
                            (HashTable.buckets ht)))).
Proof.
  intros Hinit ht. apply init_invariant in Hinit.
  destruct (run_invariant ops ht0 Hinit) as [_ [Hnd _]]. fold ht in Hnd.
  split; intros (Hn & c & Hc & Hs)%contains_inv.
  - assert (NoDup c.*1) as Hndc.
    { rewrite (entries_lookup _ c ht), !fmap_app in Hnd by done.
      apply NoDup_app in Hnd as (_ & _ & Hnd).
      by apply NoDup_app in Hnd as (Hnd & _). }
    destruct (set_chain_unique key value c Hndc Hs)
      as (l1 & old & l2 & -> & Hnot & Heq).
    eexists _, l1, old, l2. split; [exact Hc|]. split; [done|].
    rewrite <- Heq. by apply set_eq.
  - eexists _, c. split; [exact Hc|]. split.
    + intros Hin. rewrite contains_scan_decide in Hs.
      by apply bool_decide_eq_false in Hs.
    + rewrite (set_eq ht key c Hn Hc). unfold set_chain. by rewrite Hs.
Qed.

(** *** Overwriting a key *)

Lemma length_set_chain_present key value c :
  HashTable.contains_scan key c = true →
  List.length (set_chain key value c) = List.length c.
Proof.
  intros Hs. unfold set_chain. rewrite Hs.
  rewrite length_app, length_replicate. apply length_partition.
Qed.

Lemma length_entries_assign b c c' ht :
  HashTable.buckets ht !! b = Some c →
  List.length c' = List.length c →
  List.length (entries (HashTable.mk (<[b := c']> (HashTable.buckets ht))))
  = List.length (entries ht).
Proof.
  intros Hb Hl.
  rewrite (entries_assign b c c' ht Hb), (entries_lookup b c ht Hb).
  rewrite !length_app. lia.
Qed.

(** C3: on a table with a positive bucket count, after [set(K, V1)] and
    then [set(K, V2)], [get(K)] returns [V2], and [length()] returns the
    same number before and after the second call. *)
Theorem overwrite_keeps_length key v1 v2 ht :
  (0 < List.length (HashTable.buckets ht))%nat →
  ∃ ht1 ht2 n,
    HashTable.set hash key v1 ht = (Ok tt, ht1)
    ∧ HashTable.set hash key v2 ht1 = (Ok tt, ht2)
    ∧ HashTable.get hash key ht2 = (Ok v2, ht2)
    ∧ HashTable.length ht1 = (Ok n, ht1)
    ∧ HashTable.length ht2 = (Ok n, ht2).
Proof.
  intros Hn.
  destruct (set_effect key v1 ht Hn)
    as (c & ht1 & Hc & Hht1 & Hset1 & _ & Hcont1).
  apply contains_inv in Hcont1 as (Hn1 & c1 & Hc1 & Hs1).
  destruct (set_effect key v2 ht1 Hn1)
    as (c1' & ht2 & Hc1' & Hht2 & Hset2 & Hget2 & _).
  rewrite Hc1 in Hc1'. injection Hc1' as <-.
  exists ht1, ht2, (Z.of_nat (List.length (entries ht1))).
  split; [done|]. split; [done|]. split; [done|].
  split; [apply length_eq|].
  rewrite length_eq. do 3 f_equal. rewrite Hht2.
  apply (length_entries_assign _ c1); [done|].
  by apply length_set_chain_present.
Qed.

(** *** How a call changes what [contains] reports *)

Lemma call_contains key o ht live :
  HashTable.contains hash key ht = (Ok live, ht) →
  HashTable.contains hash key (call hash o ht).2
  = (Ok match o with
        | OpSet k _ => if decide (k = key) then true else live
        | OpDelete k => if decide (k = key) then false else live
        end, (call hash o ht).2).
Proof.
  intros (Hn & c & Hc & Hs)%contains_inv.
  destruct o as [k v|k]; simpl.
  - destruct (bucket_exists k ht Hn) as [ck Hck].
    rewrite (set_eq ht k ck Hn Hck). cbn [snd].
    destruct (decide (slot hash (List.length (HashTable.buckets ht)) key
                      = slot hash (List.length (HashTable.buckets ht)) k))
      as [Heq|Hne].
    + rewrite <- Heq in *. rewrite Hc in Hck. injection Hck as <-.
      erewrite contains_eq;
        [|by rewrite length_buckets_assign
         |by apply (lookup_slot_assign_eq key c)].
      by rewrite contains_scan_set_chain, Hs.
    + erewrite contains_eq;
        [|by rewrite length_buckets_assign
         |rewrite lookup_slot_assign_ne by done; exact Hc].
      rewrite decide_False by congruence. by rewrite Hs.
  - destruct (bucket_exists k ht Hn) as [ck Hck].
    rewrite (delete_eq ht k ck Hn Hck).
    destruct (HashTable.contains_scan k ck) eqn:Hsk; cbn [snd].
    + destruct (decide (slot hash (List.length (HashTable.buckets ht)) key
                        = slot hash (List.length (HashTable.buckets ht)) k))
        as [Heq|Hne].
      * rewrite <- Heq in *. rewrite Hc in Hck. injection Hck as <-.
        erewrite contains_eq;
          [|by rewrite length_buckets_assign
           |by apply (lookup_slot_assign_eq key c)].
        by rewrite contains_scan_others, Hs.
      * erewrite contains_eq;
          [|by rewrite length_buckets_assign
           |rewrite lookup_slot_assign_ne by done; exact Hc].
        rewrite decide_False by congruence. by rewrite Hs.
    + rewrite (contains_eq ht key c Hn Hc), Hs.
      destruct (decide (k = key)) as [->|Hne]; [|done].
      rewrite Hc in Hck. injection Hck as <-. congruence.
Qed.

Lemma run_contains key ops : ∀ ht live,
  HashTable.contains hash key ht = (Ok live, ht) →
  HashTable.contains hash key (run hash ops ht)
  = (Ok (last_set key ops live), run hash ops ht).
Proof.
  induction ops as [|o ops IH]; intros ht live Hcont; [done|].
  apply (call_contains key o) in Hcont.
  destruct o as [k v|k]; simpl; by apply IH.
Qed.

Lemma get_absent key ht :
  HashTable.contains hash key ht = (Ok false, ht) →
  HashTable.get hash key ht = (Raise KeyError, ht).
Proof.
  intros (Hn & c & Hc & Hs)%contains_inv.
  rewrite (get_eq ht key c Hn Hc). by rewrite get_scan_absent.
Qed.

Lemma init_contains init_size ht key :
  0 < init_size →
  HashTable.__init__ init_size = Ok ht →
  HashTable.contains hash key ht = (Ok false, ht).
Proof.
  intros Hpos Hinit.
  assert (HashTable.buckets ht
          = replicate (Z.to_nat init_size) LinkedList.empty) as Hb
    by (by injection Hinit as <-).
  assert (0 < List.length (HashTable.buckets ht))%nat as Hn
    by (rewrite Hb, length_replicate; lia).
  destruct (bucket_exists key ht Hn) as [c Hc].
  rewrite (contains_eq ht key c Hn Hc).
  rewrite Hb in Hc. by apply lookup_replicate in Hc as [-> _].
Qed.

(** C6: in a table built with a positive bucket count, for a key that was
    never set, or whose latest call was a [delete], [contains] returns
    [False] and [get] raises KeyError. *)
Theorem unset_key_absent init_size ht0 (ops : list (op K V)) key :
  0 < init_size →
  HashTable.__init__ init_size = Ok ht0 →
  last_set key ops false = false →
  HashTable.contains hash key (run hash ops ht0)
  = (Ok false, run hash ops ht0)
  ∧ HashTable.get hash key (run hash ops ht0)
    = (Raise KeyError, run hash ops ht0).
Proof.
  intros Hpos Hinit Hlast.
  assert (HashTable.contains hash key (run hash ops ht0)
          = (Ok false, run hash ops ht0)) as Hcont.
  { rewrite <- Hlast at 1. apply run_contains.
    by apply (init_contains init_size). }
  split; [done|]. by apply get_absent.
Qed.

(** *** Counting entries over a batch of calls *)

Lemma empty_invariant ht : entries ht = [] → invariant hash ht.
Proof.
  intros Hnil. split.
  - rewrite Hnil. constructor.
  - intros i c e Hi He.
    assert (e ∈ entries ht) as Hin by (apply elem_of_entries; eauto).
    rewrite Hnil in Hin. by apply elem_of_nil in Hin.
Qed.

Lemma set_batch (kvs : chain) : ∀ ht,
  (0 < List.length (HashTable.buckets ht))%nat →
  invariant hash ht →
  NoDup kvs.*1 →
  (∀ k, k ∈ kvs.*1 → k ∉ (entries ht).*1) →
  ∃ ht1,
    HashTable.for_each kvs (λ '(k, v), HashTable.set hash k v) ht
    = (Ok tt, ht1)
    ∧ List.length (HashTable.buckets ht1)
      = List.length (HashTable.buckets ht)
    ∧ invariant hash ht1
    ∧ (entries ht1).*1 ≡ₚ (entries ht).*1 ++ kvs.*1.
Proof.
  induction kvs as [|[k v] kvs IH]; intros ht Hn Hinv Hnd Hfresh.
  - exists ht. rewrite fmap_nil, (right_id_L [] (++)). done.
  - rewrite fmap_cons in Hnd. simpl in Hnd.
    apply NoDup_cons in Hnd as [Hk Hnd].
    destruct (set_step k v ht Hn Hinv) as (ht' & Hset & Hl & Hinv' & Hperm).
    rewrite bool_decide_eq_false_2 in Hperm by (apply Hfresh; left).
    destruct (IH ht') as (ht1 & Hloop & Hl1 & Hinv1 & Hperm1);
      [lia|done|done| |].
    { intros k' Hk'. rewrite Hperm.
      intros [->%list_elem_of_singleton|Hin]%elem_of_app; [done|].
      by apply (Hfresh k'); [right|]. }
    exists ht1. cbn [HashTable.for_each].
    erewrite bind_ok by exact Hset.
    split; [done|]. split; [congruence|]. split; [done|].
    rewrite Hperm1, Hperm, fmap_cons. simpl. solve_Permutation.
Qed.

Lemma delete_batch (ds : list K) : ∀ ht,
  (0 < List.length (HashTable.buckets ht))%nat →
  invariant hash ht →
  NoDup ds →
  (∀ k, k ∈ ds → k ∈ (entries ht).*1) →
  ∃ ht2,
    HashTable.for_each ds (HashTable.delete hash) ht = (Ok tt, ht2)
    ∧ List.length (HashTable.buckets ht2)
      = List.length (HashTable.buckets ht)
    ∧ invariant hash ht2
    ∧ (entries ht).*1 ≡ₚ ds ++ (entries ht2).*1.
Proof.
  induction ds as [|k ds IH]; intros ht Hn Hinv Hnd Hin.
  - by exists ht.
  - apply NoDup_cons in Hnd as [Hk Hnd].
    destruct (delete_step k ht Hn Hinv) as (Hl & Hinv' & Hres).
    rewrite bool_decide_eq_true_2 in Hres by (apply Hin; left).
    destruct Hres as [Hok Hperm].
    destruct (HashTable.delete hash k ht) as [r ht'] eqn:Hdel.
    simpl in Hl, Hinv', Hok, Hperm. subst r.
    destruct (IH ht') as (ht2 & Hloop & Hl2 & Hinv2 & Hperm2);
      [lia|done|done| |].
    { intros k' Hk'.
      assert (k' ∈ k :: (entries ht').*1) as Hk''
        by (rewrite <- Hperm; apply Hin; by right).
      apply elem_of_cons in Hk'' as [->|?]; done. }
    exists ht2. cbn [HashTable.for_each].
    erewrite bind_ok by exact Hdel.
    split; [done|]. split; [congruence|]. split; [done|].
    rewrite Hperm, Hperm2. done.
Qed.

(** C7: on an empty table with a positive bucket count, [set] calls on
    N pairwise distinct keys all return and leave [length()] = N; [delete]
    calls on M distinct keys among them then all return and leave
    [length()] = N - M. *)
Theorem length_counts_entries ht (kvs : list (K * V)) (ds : list K) :
  (0 < List.length (HashTable.buckets ht))%nat →
  HashTable.items ht = (Ok [], ht) →
  NoDup kvs.*1 →
  NoDup ds →
  ds ⊆ kvs.*1 →
  ∃ ht1 ht2,
    HashTable.for_each kvs (λ '(k, v), HashTable.set hash k v) ht
    = (Ok tt, ht1)
    ∧ HashTable.length ht1 = (Ok (Z.of_nat (List.length kvs)), ht1)
    ∧ HashTable.for_each ds (HashTable.delete hash) ht1 = (Ok tt, ht2)
    ∧ HashTable.length ht2
      = (Ok (Z.of_nat (List.length kvs) - Z.of_nat (List.length ds)), ht2).
Proof.
  intros Hn Hitems Hkvs Hds Hsub.
  rewrite items_eq in Hitems. injection Hitems as Hnil.
  destruct (set_batch kvs ht Hn (empty_invariant ht Hnil) Hkvs)
    as (ht1 & Hsets & Hl1 & Hinv1 & Hperm1).
  { intros k _. rewrite Hnil. apply not_elem_of_nil. }
  rewrite Hnil in Hperm1. simpl in Hperm1.
  destruct (delete_batch ds ht1) as (ht2 & Hdels & Hl2 & Hinv2 & Hperm2);
    [lia|done|done| |].
  { intros k Hk. rewrite Hperm1. by apply Hsub. }
  exists ht1, ht2. split; [done|].
  pose proof (Permutation_length Hperm1) as Hlen1.
  pose proof (Permutation_length Hperm2) as Hlen2.
  rewrite length_app in Hlen2. rewrite !length_fmap in Hlen1, Hlen2.
  split; [|split; [done|]].
  - rewrite length_eq. do 2 f_equal. lia.
  - rewrite length_eq. do 2 f_equal. lia.
Qed.

(** *** What a call does to the bucket of any key *)

Lemma set_chain_alt key value c :
  set_chain key value c
  = others key c
    ++ replicate (Nat.max 1 (List.length (matching key c))) (key, value).
Proof.
  unfold set_chain. destruct (HashTable.contains_scan key c) eqn:Hs.
  - apply matching_nonempty in Hs. do 2 f_equal. lia.
  - by rewrite matching_nil, others_id by by apply contains_scan_false.
Qed.

Lemma get_scan_app key c1 c2 :
  HashTable.get_scan key (c1 ++ c2)
  = match HashTable.get_scan key c1 with
    | Ok value => Ok value
    | Raise _ => HashTable.get_scan key c2
    end.
Proof.
  induction c1 as [|[k v] c1 IH]; simpl; [done|].
  by destruct (decide (k = key)).
Qed.

Lemma get_scan_others key k c :
  HashTable.get_scan k (others key c)
  = if decide (key = k) then Raise KeyError else HashTable.get_scan k c.
Proof.
  induction c as [|[k0 v0] c IH].
  - simpl. by destruct (decide (key = k)).
  - unfold others in *. destruct (decide (k0 = key)) as [->|Hne].
    + rewrite filter_cons_False by (intros H; by apply H).
      rewrite IH. destruct (decide (key = k)) as [->|Hk]; [done|].
      simpl. by rewrite decide_False.
    + rewrite filter_cons_True by done. simpl.
      destruct (decide (k0 = k)) as [->|Hk].
      * by rewrite decide_False by congruence.
      * done.
Qed.

Lemma get_scan_replicate_ne key k v n :
  key ≠ k → HashTable.get_scan k (replicate n (key, v)) = Raise KeyError.
Proof.
  intros Hne. induction n as [|n IH]; simpl; [done|].
  by rewrite decide_False.
Qed.

Lemma get_scan_raise key c x :
  HashTable.get_scan key c = Raise x → x = KeyError.
Proof.
  induction c as [|[k v] c IH]; simpl; [congruence|].
  by destruct (decide (k = key)).
Qed.

Lemma get_scan_set_chain_frame key value k c :
  HashTable.get_scan k (set_chain key value c)
  = if decide (key = k) then Ok value else HashTable.get_scan k c.
Proof.
  destruct (decide (key = k)) as [->|Hne]; [apply get_scan_set_chain|].
  rewrite set_chain_alt, get_scan_app, get_scan_others.
  rewrite decide_False by done. rewrite get_scan_replicate_ne by done.
  destruct (HashTable.get_scan k c) as [|x] eqn:Hg; [done|].
  by apply get_scan_raise in Hg as ->.
Qed.

Lemma call_length o ht :
  List.length (HashTable.buckets (call hash o ht).2)
  = List.length (HashTable.buckets ht).
Proof.
  destruct (decide (0 < List.length (HashTable.buckets ht))%nat) as [Hn|Hn].
  - destruct o as [k v|k]; simpl;
      destruct (bucket_exists k ht Hn) as [ck Hck].
    + rewrite (set_eq ht k ck Hn Hck). apply length_buckets_assign.
    + rewrite (delete_eq ht k ck Hn Hck).
      destruct (HashTable.contains_scan k ck); [|done].
      apply length_buckets_assign.
  - apply buckets_nil in Hn. destruct o as [k v|k]; simpl.
    + by rewrite set_zero.
    + by rewrite delete_zero.
Qed.

Lemma run_length ops : ∀ ht,
  List.length (HashTable.buckets (run hash ops ht))
  = List.length (HashTable.buckets ht).
Proof.
  induction ops as [|o ops IH]; intros ht; [done|].
  simpl. by rewrite IH, call_length.
Qed.

Lemma call_bucket key o ht c :
  (0 < List.length (HashTable.buckets ht))%nat →
  HashTable.buckets ht
    !! slot hash (List.length (HashTable.buckets ht)) key = Some c →
  HashTable.buckets (call hash o ht).2
    !! slot hash (List.length (HashTable.buckets (call hash o ht).2)) key
  = Some match o with
         | OpSet k v =>
             if decide (slot hash (List.length (HashTable.buckets ht)) k
                        = slot hash (List.length (HashTable.buckets ht)) key)
             then set_chain k v c else c
         | OpDelete k =>
             if decide (slot hash (List.length (HashTable.buckets ht)) k
                        = slot hash (List.length (HashTable.buckets ht)) key)
             then others k c else c
         end.
Proof.
  intros Hn Hc. destruct o as [k v|k]; simpl;
    destruct (bucket_exists k ht Hn) as [ck Hck].
  - rewrite (set_eq ht k ck Hn Hck). cbn [snd].
    destruct (decide (slot hash (List.length (HashTable.buckets ht)) k
                      = slot hash (List.length (HashTable.buckets ht)) key))
      as [Heq|Hne].
    + rewrite Heq in *. rewrite Hc in Hck. injection Hck as <-.
      by apply (lookup_slot_assign_eq key c).
    + rewrite lookup_slot_assign_ne by done. exact Hc.
  - rewrite (delete_eq ht k ck Hn Hck).
    destruct (decide (slot hash (List.length (HashTable.buckets ht)) k
                      = slot hash (List.length (HashTable.buckets ht)) key))
      as [Heq|Hne].
    + rewrite Heq in *. rewrite Hc in Hck. injection Hck as <-.
      destruct (HashTable.contains_scan k c) eqn:Hs; cbn [snd].
      * by apply (lookup_slot_assign_eq key c).
      * rewrite others_id by by apply contains_scan_false. exact Hc.
    + destruct (HashTable.contains_scan k ck); cbn [snd]; [|exact Hc].
      rewrite lookup_slot_assign_ne by done. exact Hc.
Qed.

Lemma call_get key o ht :
  (0 < List.length (HashTable.buckets ht))%nat →
  HashTable.get hash key (call hash o ht).2
  = (match o with
     | OpSet k v =>
         if decide (k = key) then Ok v else (HashTable.get hash key ht).1
     | OpDelete k =>
         if decide (k = key) then Raise KeyError
         else (HashTable.get hash key ht).1
     end, (call hash o ht).2).
Proof.
  intros Hn. destruct (bucket_exists key ht Hn) as [c Hc].
  pose proof (call_bucket key o ht c Hn Hc) as Hc'.
  erewrite get_eq; [|by rewrite call_length|exact Hc'].
  rewrite (get_eq ht key c Hn Hc). cbn [fst]. f_equal.
  destruct o as [k v|k].
  - destruct (decide (slot hash (List.length (HashTable.buckets ht)) k
                      = slot hash (List.length (HashTable.buckets ht)) key))
      as [Heq|Hne].
    + apply get_scan_set_chain_frame.
    + rewrite decide_False by congruence. done.
  - destruct (decide (slot hash (List.length (HashTable.buckets ht)) k
                      = slot hash (List.length (HashTable.buckets ht)) key))
      as [Heq|Hne].
    + apply get_scan_others.
    + rewrite decide_False by congruence. done.
Qed.

Lemma run_get key ops : ∀ ht cur,
  (0 < List.length (HashTable.buckets ht))%nat →
  (HashTable.get hash key ht).1 = lookup_outcome cur →
  HashTable.get hash key (run hash ops ht)
  = (lookup_outcome (last_value key ops cur), run hash ops ht).
Proof.
  induction ops as [|o ops IH]; intros ht cur Hn Hget.
  - simpl. rewrite <- Hget. destruct (bucket_exists key ht Hn) as [c Hc].
    by rewrite (get_eq ht key c Hn Hc).
  - pose proof (call_get key o ht Hn) as Hstep.
    pose proof (call_length o ht) as Hlen.
    change (run hash (o :: ops) ht) with (run hash ops (call hash o ht).2).
    destruct o as [k v|k]; cbn [last_value];
      (apply IH; [by rewrite Hlen|]); rewrite Hstep; cbn [fst];
      by destruct (decide (k = key)).
Qed.

Lemma init_get init_size ht key :
  0 < init_size →
  HashTable.__init__ init_size = Ok ht →
  (0 < List.length (HashTable.buckets ht))%nat
  ∧ HashTable.get hash key ht = (Raise KeyError, ht).
Proof.
  intros Hpos Hinit.
  pose proof (init_contains init_size ht key Hpos Hinit) as Hc.
  split; [by apply contains_inv in Hc as [? _]|by apply get_absent].
Qed.

(** X1: a table built with a positive bucket count behaves as a map under
    any sequence of [set] and [delete] calls: [get(K)] returns the value of
    the latest [set(K, _)] when no [delete(K)] came after it, and raises
    KeyError otherwise. *)
Theorem get_after_run init_size ht0 (ops : list (op K V)) key :
  0 < init_size →
  HashTable.__init__ init_size = Ok ht0 →
  HashTable.get hash key (run hash ops ht0)
  = (lookup_outcome (last_value key ops None), run hash ops ht0).
Proof.
  intros Hpos Hinit.
  destruct (init_get init_size ht0 key Hpos Hinit) as [Hn Hget].
  apply run_get; [done|]. by rewrite Hget.
Qed.

(** X2: [set] and [delete] on one key leave what [get] and [contains]
    answer for every other key as it was, on any table. *)
Theorem other_keys_untouched key k value ht :
  k ≠ key →
  (HashTable.get hash key (HashTable.set hash k value ht).2).1
  = (HashTable.get hash key ht).1
  ∧ (HashTable.get hash key (HashTable.delete hash k ht).2).1
    = (HashTable.get hash key ht).1
  ∧ (HashTable.contains hash key (HashTable.set hash k value ht).2).1
    = (HashTable.contains hash key ht).1
  ∧ (HashTable.contains hash key (HashTable.delete hash k ht).2).1
    = (HashTable.contains hash key ht).1.
Proof.
  intros Hne.
  destruct (decide (0 < List.length (HashTable.buckets ht))%nat) as [Hn|Hn].
  - destruct (bucket_exists key ht Hn) as [c Hc].
    pose proof (contains_eq ht key c Hn Hc) as Hcont.
    pose proof (call_get key (OpSet k value) ht Hn) as Hgs.
    pose proof (call_get key (OpDelete k) ht Hn) as Hgd.
    pose proof (call_contains key (OpSet k value) ht _ Hcont) as Hcs.
    pose proof (call_contains key (OpDelete k) ht _ Hcont) as Hcd.
    change (call hash (OpSet k value) ht)
      with (HashTable.set hash k value ht) in Hgs, Hcs.
    change (call hash (OpDelete k) ht)
      with (HashTable.delete hash k ht) in Hgd, Hcd.
    rewrite Hgs, Hgd, Hcs, Hcd, Hcont. cbn [fst].
    by rewrite !decide_False by done.
  - apply buckets_nil in Hn.
    by rewrite (set_zero ht k Hn), (delete_zero ht k Hn).
Qed.

(** *** Further facts about chains *)

Lemma get_scan_present key c :
  HashTable.contains_scan key c = true →
  ∃ value, HashTable.get_scan key c = Ok value.
Proof.
  induction c as [|[k v] c IH]; simpl; [done|].
  destruct (decide (k = key)); [by exists v|done].
Qed.

Lemma get_scan_elem key value c :
  HashTable.get_scan key c = Ok value → (key, value) ∈ c.
Proof.
  induction c as [|[k v] c IH]; simpl; [done|].
  destruct (decide (k = key)) as [->|Hne].
  - intros [= ->]. left.
  - intros H. right. by apply IH.
Qed.

Lemma get_scan_unique key value c :
  NoDup c.*1 → (key, value) ∈ c → HashTable.get_scan key c = Ok value.
Proof.
  induction c as [|[k v] c IH]; intros Hnd Hin.
  - by apply elem_of_nil in Hin.
  - rewrite fmap_cons in Hnd. apply NoDup_cons in Hnd as [Hk Hnd]. simpl.
    apply elem_of_cons in Hin as [[= <- <-]|Hin].
    + by rewrite decide_True.
    + destruct (decide (k = key)) as [->|Hne]; [|by apply IH].
      exfalso. apply Hk. by apply (list_elem_of_fmap_2 fst) in Hin.
Qed.

Lemma others_replicate key value n :
  others key (replicate n (key, value)) = [].
Proof.
  unfold others. induction n as [|n IH]; simpl; [done|].
  by rewrite filter_cons_False by (intros H; by apply H).
Qed.

Lemma matching_replicate key value n :
  matching key (replicate n (key, value)) = replicate n (key, value).
Proof.
  unfold matching. induction n as [|n IH]; simpl; [done|].
  rewrite filter_cons_True by done. by rewrite IH.
Qed.

Lemma set_chain_set_chain key v1 v2 c :
  set_chain key v2 (set_chain key v1 c) = set_chain key v2 c.
Proof.
  rewrite (set_chain_alt key v2 (set_chain key v1 c)).
  rewrite (set_chain_alt key v1 c), (set_chain_alt key v2 c).
  rewrite others_app, matching_app, others_replicate, matching_replicate.
  rewrite (others_id key (others key c))
    by (intros e He; by apply others_spec in He as [_ ?]).
  rewrite (matching_nil key (others key c))
    by (intros e He; by apply others_spec in He as [_ ?]).
  rewrite (right_id_L [] (++)). simpl. rewrite length_replicate.
  do 2 f_equal. lia.
Qed.

Lemma bucket_nodup b c ht :
  invariant hash ht → HashTable.buckets ht !! b = Some c → NoDup c.*1.
Proof.
  intros [Hnd _] Hb.
  rewrite (entries_lookup _ c ht), !fmap_app in Hnd by done.
  apply NoDup_app in Hnd as (_ & _ & Hnd).
  by apply NoDup_app in Hnd as (Hnd & _).
Qed.

Lemma values_eq ht : HashTable.values ht = (Ok (entries ht).*2, ht).
Proof.
  unfold HashTable.values, entries, LinkedList.items. do 2 f_equal.
  assert (∀ (its : chain) (acc : list V),
            foldl (λ acc '(_, value), acc ++ [value]) acc its
            = acc ++ its.*2) as Hinner.
  { induction its as [|[k v] its IH]; intros acc; simpl.
    - by rewrite (right_id_L [] (++)).
    - by rewrite IH, <- (assoc_L (++)). }
  assert (∀ (bs : list chain) (acc : list V),
            foldl (λ all_values bucket,
                     foldl (λ acc '(_, value), acc ++ [value])
                           all_values bucket)
                  acc bs
            = acc ++ (concat bs).*2) as Houter; [|apply Houter].
  induction bs as [|c bs IH]; intros acc; simpl.
  - by rewrite (right_id_L [] (++)).
  - by rewrite IH, Hinner, fmap_app, (assoc_L (++)).
Qed.

(** *** Further results *)

(** X3: no call changes the number of buckets: after any sequence of [set]
    and [delete] calls the table has the buckets it started with. *)
Theorem bucket_count_fixed (ops : list (op K V)) ht :
  List.length (HashTable.buckets (run hash ops ht))
  = List.length (HashTable.buckets ht).
Proof. apply run_length. Qed.

(** X4: the four traversals agree on any table: [keys()] and [values()]
    are the first and second components of [items()], in the same order,
    and [length()] is the number of items. *)
Theorem traversals_agree ht :
  ∃ its, HashTable.items ht = (Ok its, ht)
       ∧ HashTable.keys ht = (Ok its.*1, ht)
       ∧ HashTable.values ht = (Ok its.*2, ht)
       ∧ HashTable.length ht = (Ok (Z.of_nat (List.length its)), ht).
Proof.
  exists (entries ht).
  split; [apply items_eq|]. split; [apply keys_eq|].
  split; [apply values_eq|apply length_eq].
Qed.

(** X5: in every table reached from a constructed one, [items()] lists
    exactly the pairs [get] answers: (K, V) is an item if and only if
    [get(K)] returns V. *)
Theorem items_iff_get init_size ht0 (ops : list (op K V)) key value :
  HashTable.__init__ init_size = Ok ht0 →
  ∃ its,
    HashTable.items (run hash ops ht0) = (Ok its, run hash ops ht0)
    ∧ ((key, value) ∈ its
       ↔ HashTable.get hash key (run hash ops ht0)
         = (Ok value, run hash ops ht0)).
Proof.
  intros Hinit. apply init_invariant in Hinit.
  destruct (run_invariant ops ht0 Hinit) as [_ Hinv].
  set (ht := run hash ops ht0) in *.
  exists (entries ht). split; [apply items_eq|].
  destruct (decide (0 < List.length (HashTable.buckets ht))%nat) as [Hn|Hn].
  - destruct (bucket_exists key ht Hn) as [c Hc].
    rewrite (get_eq ht key c Hn Hc).
    pose proof (bucket_nodup _ c ht Hinv Hc) as Hnd.
    destruct Hinv as [_ Hwp]. split.
    + intros (i & c0 & Hi & He)%elem_of_entries.
      pose proof (Hwp i c0 _ Hi He) as Hslot. simpl in Hslot.
      rewrite Hslot, Hi in Hc. injection Hc as ->.
      by rewrite (get_scan_unique key value c).
    + intros [= Hg]. apply elem_of_entries.
      eexists _, c. split; [exact Hc|]. by apply get_scan_elem.
  - apply buckets_nil in Hn. rewrite (get_zero ht key Hn).
    unfold entries. rewrite Hn. simpl. split; [|done].
    by intros ?%elem_of_nil.
Qed.

(** X6: in every table reached from a constructed one, [keys()] lists
    exactly the keys [contains] accepts. *)
Theorem keys_iff_contains init_size ht0 (ops : list (op K V)) key :
  HashTable.__init__ init_size = Ok ht0 →
  ∃ ks,
    HashTable.keys (run hash ops ht0) = (Ok ks, run hash ops ht0)
    ∧ (key ∈ ks
       ↔ HashTable.contains hash key (run hash ops ht0)
         = (Ok true, run hash ops ht0)).
Proof.
  intros Hinit. apply init_invariant in Hinit.
  destruct (run_invariant ops ht0 Hinit) as [_ [_ Hwp]].
  set (ht := run hash ops ht0) in *.
  exists (entries ht).*1. split; [apply keys_eq|].
  destruct (decide (0 < List.length (HashTable.buckets ht))%nat) as [Hn|Hn].
  - destruct (bucket_exists key ht Hn) as [c Hc].
    rewrite (contains_eq ht key c Hn Hc), (key_in_entries key c ht Hwp Hc).
    rewrite contains_scan_decide. split.
    + intros Hin. by rewrite bool_decide_eq_true_2.
    + intros [= Hd]. by apply bool_decide_eq_true in Hd.
  - apply buckets_nil in Hn. rewrite (contains_zero ht key Hn).
    unfold entries. rewrite Hn. simpl. split; [|done].
    by intros ?%elem_of_nil.
Qed.

(** X7: [get] and [contains] agree on any table and leave it as it is:
    where [contains] returns True, [get] returns a value; where it returns
    False, [get] raises KeyError; [contains] raises only
    ZeroDivisionError, and then so does [get]. *)
Theorem get_contains_agree key ht :
  (HashTable.contains hash key ht).2 = ht
  ∧ (HashTable.get hash key ht).2 = ht
  ∧ match (HashTable.contains hash key ht).1 with
    | Ok true => ∃ value, (HashTable.get hash key ht).1 = Ok value
    | Ok false => (HashTable.get hash key ht).1 = Raise KeyError
    | Raise x =>
        x = ZeroDivisionError
        ∧ (HashTable.get hash key ht).1 = Raise ZeroDivisionError
    end.
Proof.
  destruct (decide (0 < List.length (HashTable.buckets ht))%nat) as [Hn|Hn].
  - destruct (bucket_exists key ht Hn) as [c Hc].
    rewrite (contains_eq ht key c Hn Hc), (get_eq ht key c Hn Hc).
    split; [done|]. split; [done|]. cbn [fst].
    destruct (HashTable.contains_scan key c) eqn:Hs.
    + by apply get_scan_present.
    + by apply get_scan_absent.
  - apply buckets_nil in Hn.
    by rewrite (contains_zero ht key Hn), (get_zero ht key Hn).
Qed.

(** X8: a call that raises changes nothing: when [set] or [delete] ends in
    an exception, the table after the call is the table before it, and the
    exception is KeyError or ZeroDivisionError. *)
Theorem failed_call_no_mutation (o : op K V) ht x :
  (call hash o ht).1 = Raise x →
  (call hash o ht).2 = ht ∧ (x = KeyError ∨ x = ZeroDivisionError).
Proof.
  destruct (decide (0 < List.length (HashTable.buckets ht))%nat) as [Hn|Hn].
  - destruct o as [k v|k]; simpl;
      destruct (bucket_exists k ht Hn) as [c Hc].
    + by rewrite (set_eq ht k c Hn Hc).
    + rewrite (delete_eq ht k c Hn Hc).
      destruct (HashTable.contains_scan k c); [done|].
      intros [= <-]. auto.
  - apply buckets_nil in Hn. destruct o as [k v|k]; simpl.
    + rewrite (set_zero ht k Hn). intros [= <-]. auto.
    + rewrite (delete_zero ht k Hn). intros [= <-]. auto.
Qed.

(** X9: on a table with a positive bucket count, after [delete(K)],
    whether it returned or raised, [contains(K)] returns False and
    [get(K)] raises KeyError. *)
Theorem delete_then_absent key ht :
  (0 < List.length (HashTable.buckets ht))%nat →
  HashTable.contains hash key (HashTable.delete hash key ht).2
  = (Ok false, (HashTable.delete hash key ht).2)
  ∧ HashTable.get hash key (HashTable.delete hash key ht).2
    = (Raise KeyError, (HashTable.delete hash key ht).2).
Proof.
  intros Hn. destruct (bucket_exists key ht Hn) as [c Hc].
  pose proof (call_contains key (OpDelete key) ht _
                (contains_eq ht key c Hn Hc)) as Hcont.
  change (call hash (OpDelete key) ht)
    with (HashTable.delete hash key ht) in Hcont.
  cbv beta iota in Hcont. rewrite decide_True in Hcont by done.
  split; [done|]. by apply get_absent.
Qed.

Lemma chain_unique key c :
  NoDup c.*1 →
  HashTable.contains_scan key c = true →
  ∃ l1 value l2, c = l1 ++ (key, value) :: l2
               ∧ others key c = l1 ++ l2
               ∧ HashTable.get_scan key c = Ok value.
Proof.
  intros Hnd Hs.
  apply contains_scan_spec in Hs as ([k value] & He & Hk). simpl in Hk. subst k.
  apply list_elem_of_split in He as (l1 & l2 & ->).
  rewrite fmap_app, fmap_cons in Hnd. simpl in Hnd.
  apply NoDup_app in Hnd as (_ & Hl1 & [Hl2 _]%NoDup_cons).
  assert (∀ e, e ∈ l1 → e.1 ≠ key) as Hl1'.
  { intros e He Hk. apply (Hl1 key); [|left].
    rewrite <- Hk. by apply list_elem_of_fmap_2. }
  assert (∀ e, e ∈ l2 → e.1 ≠ key) as Hl2'.
  { intros e He Hk. apply Hl2. rewrite <- Hk. by apply list_elem_of_fmap_2. }
  exists l1, value, l2. split; [done|]. split.
  - rewrite others_app. unfold others at 2.
    rewrite filter_cons_False by (intros H; by apply H).
    fold (others key l2). by rewrite !others_id.
  - rewrite get_scan_skip by done. simpl. by rewrite decide_True.
Qed.

(** X10: in a table reached from a constructed one, [delete] on a present
    key takes exactly the key's entry out of its chain, keeping the order
    of the others, returns, and lowers [length()] by one; the entry removed
    carries the value [get] returned. *)
Theorem delete_present init_size ht0 (ops : list (op K V)) key :
  HashTable.__init__ init_size = Ok ht0 →
  HashTable.contains hash key (run hash ops ht0)
  = (Ok true, run hash ops ht0) →
  ∃ b l1 value l2 ht' n,
    HashTable.buckets (run hash ops ht0) !! b
    = Some (l1 ++ (key, value) :: l2)
    ∧ HashTable.get hash key (run hash ops ht0)
      = (Ok value, run hash ops ht0)
    ∧ ht' = HashTable.mk
              (<[b := l1 ++ l2]> (HashTable.buckets (run hash ops ht0)))
    ∧ HashTable.delete hash key (run hash ops ht0) = (Ok tt, ht')
    ∧ HashTable.length (run hash ops ht0) = (Ok n, run hash ops ht0)
    ∧ HashTable.length ht' = (Ok (n - 1), ht').
Proof.
  intros Hinit (Hn & c & Hc & Hs)%contains_inv.
  apply init_invariant in Hinit.
  destruct (run_invariant ops ht0 Hinit) as [_ Hinv].
  set (ht := run hash ops ht0) in *.
  pose proof (bucket_nodup _ c ht Hinv Hc) as Hnd.
  destruct (chain_unique key c Hnd Hs)
    as (l1 & value & l2 & Hsplit & Hoth & Hg).
  eexists _, l1, value, l2, _, _.
  split; [by rewrite <- Hsplit|].
  split; [by rewrite (get_eq ht key c Hn Hc), Hg|].
  split; [reflexivity|].
  split; [by rewrite (delete_eq ht key c Hn Hc), Hs, Hoth|].
  split; [apply length_eq|].
  rewrite length_eq. do 2 f_equal.
  rewrite (entries_assign _ c) by done.
  rewrite (entries_lookup _ c ht) by done.
  rewrite Hsplit, ?length_app. cbn [List.length]. rewrite ?length_app. lia.
Qed.

(** X11: on a table with a positive bucket count, [set] returns and
    [length()] grows by one when [contains] reported the key absent, and
    stays the same when it reported it present. *)
Theorem set_length key value ht :
  (0 < List.length (HashTable.buckets ht))%nat →
  ∃ present n ht',
    HashTable.contains hash key ht = (Ok present, ht)
    ∧ HashTable.set hash key value ht = (Ok tt, ht')
    ∧ HashTable.length ht = (Ok n, ht)
    ∧ HashTable.length ht' = (Ok (if present then n else n + 1), ht').
Proof.
  intros Hn. destruct (bucket_exists key ht Hn) as [c Hc].
  eexists _, _, _.
  split; [by apply (contains_eq ht key c)|].
  split; [by apply (set_eq ht key c)|].
  split; [apply length_eq|].
  rewrite length_eq. do 2 f_equal.
  rewrite (entries_assign _ c) by done.
  rewrite (entries_lookup _ c ht) by done.
  rewrite !length_app.
  destruct (HashTable.contains_scan key c) eqn:Hs.
  - by rewrite length_set_chain_present.
  - unfold set_chain. rewrite Hs, length_app. simpl. lia.
Qed.

(** X12: a [set] overwrites whatever an earlier [set] of the same key
    left: on any table, [set(K, V1)] followed by [set(K, V2)] ends in the
    same outcome and the same table as [set(K, V2)] alone. *)
Theorem set_set key v1 v2 ht :
  HashTable.set hash key v2 (HashTable.set hash key v1 ht).2
  = HashTable.set hash key v2 ht.
Proof.
  destruct (decide (0 < List.length (HashTable.buckets ht))%nat) as [Hn|Hn].
  - destruct (bucket_exists key ht Hn) as [c Hc].
    rewrite (set_eq ht key c Hn Hc v1). cbn [snd].
    erewrite set_eq;
      [|by rewrite length_buckets_assign
       |by apply (lookup_slot_assign_eq key c)].
    rewrite (set_eq ht key c Hn Hc v2).
    rewrite length_buckets_assign, assign_assign.
    by rewrite set_chain_set_chain.
  - apply buckets_nil in Hn. by rewrite !(set_zero ht key Hn).
Qed.

(** X13: inserting a key that [contains] reports absent and deleting it
    again gives back the very same table. *)
Theorem set_delete_roundtrip key value ht :
  HashTable.contains hash key ht = (Ok false, ht) →
  HashTable.delete hash key (HashTable.set hash key value ht).2
  = (Ok tt, ht).
Proof.
  intros (Hn & c & Hc & Hs)%contains_inv.
  rewrite (set_eq ht key c Hn Hc value). cbn [snd].
  erewrite delete_eq;
    [|by rewrite length_buckets_assign
     |by apply (lookup_slot_assign_eq key c)].
  rewrite contains_scan_set_chain, decide_True by done.
  rewrite length_buckets_assign, assign_assign.
  unfold set_chain. rewrite Hs, others_app.
  rewrite (others_id key c) by by apply contains_scan_false.
  unfold others at 1. rewrite filter_cons_False by (intros H; by apply H).
  rewrite filter_nil, (right_id_L [] (++)). by rewrite assign_id.
Qed.

(** X14: on a table with n > 0 buckets, [_bucket_index] returns an index
    i with 0 <= i < n, also for a negative hash, and [get_bucket] returns
    the bucket stored at that position: the subscript is never out of
    range. *)
Theorem bucket_index_in_range key ht :
  (0 < List.length (HashTable.buckets ht))%nat →
  ∃ i c,
    HashTable._bucket_index hash key ht = (Ok i, ht)
    ∧ 0 ≤ i < Z.of_nat (List.length (HashTable.buckets ht))
    ∧ HashTable.get_bucket hash key ht = (Ok (Z.to_nat i), ht)
    ∧ HashTable.buckets ht !! Z.to_nat i = Some c.
Proof.
  intros Hn. destruct (bucket_exists key ht Hn) as [c Hc].
  exists (hash key `mod` Z.of_nat (List.length (HashTable.buckets ht))), c.
  split.
  { unfold HashTable._bucket_index. cbv zeta.
    by rewrite decide_False by lia. }
  split; [apply Z.mod_pos_bound; lia|].
  split; [by apply get_bucket_pos|exact Hc].
Qed.

(** *** The keys left by a sequence of calls *)

Lemma filter_all {A} (P : A → Prop) `{!∀ x, Decision (P x)} (l : list A) :
  (∀ x, x ∈ l → P x) → filter P l = l.
Proof.
  induction l as [|x l IH]; intros Hall; [done|].
  rewrite filter_cons_True by (apply Hall; left).
  f_equal. apply IH. intros y Hy. apply Hall. by right.
Qed.

Lemma run_keys ops : ∀ ht (acc : list K),
  (0 < List.length (HashTable.buckets ht))%nat →
  invariant hash ht →
  (entries ht).*1 ≡ₚ acc →
  (entries (run hash ops ht)).*1 ≡ₚ live_keys ops acc.
Proof.
  induction ops as [|o ops IH]; intros ht acc Hn Hinv Hacc; [done|].
  change (run hash (o :: ops) ht) with (run hash ops (call hash o ht).2).
  pose proof (call_length o ht) as Hlen.
  destruct o as [k v|k]; cbn [live_keys call] in *.
  - destruct (set_step k v ht Hn Hinv) as (ht' & Hset & _ & Hinv' & Hperm).
    rewrite Hset in *. cbn [snd] in *.
    apply IH; [lia|done|]. rewrite Hperm.
    rewrite (bool_decide_ext (k ∈ (entries ht).*1) (k ∈ acc))
      by by rewrite Hacc.
    destruct (bool_decide (k ∈ acc)); simpl; by rewrite Hacc.
  - destruct (delete_step k ht Hn Hinv) as (_ & Hinv' & Hres).
    apply IH; [lia|done|].
    destruct Hinv as [Hnd _].
    case_bool_decide as Hin.
    + destruct Hres as [_ Hperm]. rewrite <- Hacc, Hperm.
      rewrite Hperm in Hnd. apply NoDup_cons in Hnd as [Hk _].
      rewrite filter_cons_False by (intros H; by apply H).
      rewrite filter_all; [done|]. intros x Hx ->. done.
    + rewrite Hres. cbn [snd]. rewrite <- Hacc.
      rewrite filter_all; [done|].
      intros x Hx ->. done.
Qed.

Lemma init_entries init_size ht :
  HashTable.__init__ init_size = Ok ht → entries ht = [].
Proof.
  intros [= <-]. unfold entries. simpl.
  induction (Z.to_nat init_size) as [|n IH]; simpl; auto.
Qed.

Lemma init_length init_size ht :
  0 < init_size →
  HashTable.__init__ init_size = Ok ht →
  (0 < List.length (HashTable.buckets ht))%nat.
Proof.
  intros Hpos [= <-]. simpl. rewrite length_replicate. lia.
Qed.

Lemma run_entries init_size ht0 (ops : list (op K V)) :
  0 < init_size →
  HashTable.__init__ init_size = Ok ht0 →
  (entries (run hash ops ht0)).*1 ≡ₚ live_keys ops [].
Proof.
  intros Hpos Hinit. apply run_keys.
  - by apply (init_length init_size).
  - by apply (init_invariant init_size).
  - by rewrite (init_entries init_size).
Qed.

(** X15: after any sequence of [set] and [delete] calls on a table built
    with a positive bucket count, [keys()] holds, in some order, the keys
    of a plain list on which each [set] adds its key unless present and
    each [delete] removes its key; [length()] is the number of those
    keys. *)
Theorem keys_after_run init_size ht0 (ops : list (op K V)) :
  0 < init_size →
  HashTable.__init__ init_size = Ok ht0 →
  ∃ ks,
    HashTable.keys (run hash ops ht0) = (Ok ks, run hash ops ht0)
    ∧ ks ≡ₚ live_keys ops []
    ∧ HashTable.length (run hash ops ht0)
      = (Ok (Z.of_nat (List.length (live_keys ops []))), run hash ops ht0).
Proof.
  intros Hpos Hinit.
  pose proof (run_entries init_size ht0 ops Hpos Hinit) as Hperm.
  eexists. split; [apply keys_eq|]. split; [done|].
  rewrite length_eq. do 3 f_equal.
  by rewrite <- Hperm, length_fmap.
Qed.

(** *** Calls on a table reached from a constructed one *)

Section reached.
Variables (init_size : Z) (ht0 : table) (ops : list (op K V)).
Hypothesis Hpos : 0 < init_size.
Hypothesis Hinit : HashTable.__init__ init_size = Ok ht0.







End reached.

(** *** Text forms *)

Lemma str_of_entries (repr_key : K → string) (repr_value : V → string) ht :
  HashTable.__str__ repr_key repr_value ht
  = (Ok ("{"
         +:+ str_join ", "
               ((λ '(key, val), repr_key key +:+ ": " +:+ repr_value val)
                  <$> entries ht)
         +:+ "}"), ht).
Proof.
  unfold HashTable.__str__. by erewrite bind_ok by apply items_eq.
Qed.

Lemma repr_of_entries (repr_key : K → string) (repr_value : V → string) ht :
  HashTable.__repr__ repr_key repr_value ht
  = (Ok ("HashTable(" +:+ HashTable.repr_items repr_key repr_value (entries ht)
         +:+ ")"), ht).
Proof.
  unfold HashTable.__repr__. by erewrite bind_ok by apply items_eq.
Qed.

(** X16: on a table that holds no item, whatever its number of buckets,
    [__str__] returns the text of an empty dict and [__repr__] that of
    a table over an empty list; neither changes the table. *)
Theorem text_of_empty (repr_key : K → string) (repr_value : V → string) ht :
  HashTable.items ht = (Ok [], ht) →
  HashTable.__str__ repr_key repr_value ht = (Ok "{}", ht)
  ∧ HashTable.__repr__ repr_key repr_value ht = (Ok "HashTable([])", ht).
Proof.
  rewrite items_eq. intros [= Hnil].
  by rewrite str_of_entries, repr_of_entries, Hnil.
Qed.
End proofs.

(** ** The self-test routine runs to its end *)



(** ** The results at the concrete run *)

Example demo_reached_buckets :
  HashTable.buckets demo_reached
  = [[]; [(1, 10); (9, 90)]; []; []; []; []; [(-1, 5)]; []].
Proof. vm_compute. reflexivity. Qed.

Lemma set_then_get_contains_witness :
  (0 < List.length (HashTable.buckets demo_reached))%nat
  ∧ ∃ ht', HashTable.set int_hash 9 91 demo_reached = (Ok tt, ht')
         ∧ HashTable.get int_hash 9 ht' = (Ok 91, ht')
         ∧ HashTable.contains int_hash 9 ht' = (Ok true, ht').
Proof.
  assert (0 < List.length (HashTable.buckets demo_reached))%nat as Hn
    by (vm_compute; lia).
  split; [exact Hn|].
  exact (set_then_get_contains int_hash 9 91 demo_reached Hn).
Defined.

Lemma one_entry_per_key_witness :
  HashTable.__init__ 8 = Ok demo_table
  ∧ ∃ ks, HashTable.keys (run int_hash demo_calls demo_table)
          = (Ok ks, run int_hash demo_calls demo_table)
        ∧ NoDup ks.
Proof.
  assert (HashTable.__init__ 8 = Ok demo_table) as Hinit
    by (vm_compute; reflexivity).
  split; [exact Hinit|].
  exact (one_entry_per_key int_hash 8 demo_table demo_calls Hinit).
Defined.

Lemma overwrite_keeps_length_witness :
  (0 < List.length (HashTable.buckets demo_reached))%nat
  ∧ ∃ ht1 ht2 n,
      HashTable.set int_hash 1 11 demo_reached = (Ok tt, ht1)
      ∧ HashTable.set int_hash 1 12 ht1 = (Ok tt, ht2)
      ∧ HashTable.get int_hash 1 ht2 = (Ok 12, ht2)
      ∧ HashTable.length ht1 = (Ok n, ht1)
      ∧ HashTable.length ht2 = (Ok n, ht2).
Proof.
  assert (0 < List.length (HashTable.buckets demo_reached))%nat as Hn
    by (vm_compute; lia).
  split; [exact Hn|].
  exact (overwrite_keeps_length int_hash 1 11 12 demo_reached Hn).
Defined.

Lemma delete_absent_witness :
  HashTable.contains int_hash 17 demo_reached = (Ok false, demo_reached)
  ∧ HashTable.delete int_hash 17 demo_reached = (Raise KeyError, demo_reached)
  ∧ HashTable.length (HashTable.delete int_hash 17 demo_reached).2
    = HashTable.length demo_reached.
Proof.
  assert (HashTable.contains int_hash 17 demo_reached
          = (Ok false, demo_reached)) as Habsent
    by (vm_compute; reflexivity).
  split; [exact Habsent|].
  exact (delete_absent int_hash 17 demo_reached Habsent).
Defined.

Lemma unset_key_absent_witness :
  0 < 8
  ∧ HashTable.__init__ 8 = Ok demo_table
  ∧ last_set 17 demo_calls false = false
  ∧ HashTable.contains int_hash 17 (run int_hash demo_calls demo_table)
    = (Ok false, run int_hash demo_calls demo_table)
  ∧ HashTable.get int_hash 17 (run int_hash demo_calls demo_table)
    = (Raise KeyError, run int_hash demo_calls demo_table).
Proof.
  assert (0 < 8) as Hpos by lia.
  assert (HashTable.__init__ 8 = Ok demo_table) as Hinit
    by (vm_compute; reflexivity).
  assert (last_set 17 demo_calls false = false) as Hlast
    by (vm_compute; reflexivity).
  split; [exact Hpos|]. split; [exact Hinit|]. split; [exact Hlast|].
  exact (unset_key_absent int_hash 8 demo_table demo_calls 17
           Hpos Hinit Hlast).
Defined.

Lemma length_counts_entries_witness :
  (0 < List.length (HashTable.buckets demo_table))%nat
  ∧ HashTable.items demo_table = (Ok [], demo_table)
  ∧ ∃ ht1 ht2,
      HashTable.for_each [(1, 1); (9, 5); (10, 10)]
        (λ '(k, v), HashTable.set int_hash k v) demo_table
      = (Ok tt, ht1)
      ∧ HashTable.length ht1 = (Ok 3, ht1)
      ∧ HashTable.for_each [9; 1] (HashTable.delete int_hash) ht1
        = (Ok tt, ht2)
      ∧ HashTable.length ht2 = (Ok (3 - 2), ht2).
Proof.
  assert (0 < List.length (HashTable.buckets demo_table))%nat as Hn
    by (vm_compute; lia).
  assert (HashTable.items demo_table = (Ok [], demo_table)) as Hempty
    by (vm_compute; reflexivity).
  split; [exact Hn|]. split; [exact Hempty|].
  apply (length_counts_entries int_hash demo_table
           [(1, 1); (9, 5); (10, 10)] [9; 1] Hn Hempty).
  - apply (bool_decide_unpack _). vm_compute. exact I.
  - apply (bool_decide_unpack _). vm_compute. exact I.
  - apply (bool_decide_unpack _). vm_compute. exact I.
Defined.

Lemma set_moves_entry_to_tail_witness :
  HashTable.__init__ 8 = Ok demo_table
  ∧ HashTable.contains int_hash 1 (run int_hash demo_calls demo_table)
    = (Ok true, run int_hash demo_calls demo_table)
  ∧ ∃ b l1 old l2,
      HashTable.buckets (run int_hash demo_calls demo_table) !! b
      = Some (l1 ++ (1, old) :: l2)
      ∧ (1 ∉ (l1 ++ l2).*1)
      ∧ HashTable.set int_hash 1 12 (run int_hash demo_calls demo_table)
        = (Ok tt,
           HashTable.mk
             (<[b := l1 ++ l2 ++ [(1, 12)]]>
                (HashTable.buckets (run int_hash demo_calls demo_table)))).
Proof.
  assert (HashTable.__init__ 8 = Ok demo_table) as Hinit
    by (vm_compute; reflexivity).
  assert (HashTable.contains int_hash 1 (run int_hash demo_calls demo_table)
          = (Ok true, run int_hash demo_calls demo_table)) as Hpresent
    by (vm_compute; reflexivity).
  split; [exact Hinit|]. split; [exact Hpresent|].
  exact (proj1 (set_moves_entry_to_tail int_hash 8 demo_table demo_calls 1 12
                  Hinit) Hpresent).
Defined.

Lemma nonpositive_size_zero_buckets_witness :
  -3 ≤ 0
  ∧ ∃ ht : HashTable.t Z Z,
      HashTable.__init__ (-3) = Ok ht
      ∧ HashTable.buckets ht = []
      ∧ ∀ key value,
          HashTable._bucket_index int_hash key ht = (Raise ZeroDivisionError, ht)
          ∧ HashTable.get_bucket int_hash key ht = (Raise ZeroDivisionError, ht)
          ∧ HashTable.get int_hash key ht = (Raise ZeroDivisionError, ht)
          ∧ HashTable.set int_hash key value ht = (Raise ZeroDivisionError, ht)
          ∧ HashTable.contains int_hash key ht = (Raise ZeroDivisionError, ht)
          ∧ HashTable.delete int_hash key ht = (Raise ZeroDivisionError, ht).
Proof.
  assert (-3 ≤ 0) as Hle by lia.
  split; [exact Hle|].
  exact (nonpositive_size_zero_buckets int_hash (-3) Hle).
Defined.

(** C5 as stated fails: with [init_size = 0] the constructor returns a
    table (without buckets) and raises nothing. *)
Lemma init_zero_does_not_fail :
  @HashTable.__init__ Z Z 0 = Ok (HashTable.mk [])
  ∧ ¬ ∃ e, @HashTable.__init__ Z Z 0 = Raise e.
Proof.
  split; [reflexivity|]. intros [e He]. discriminate He.
Qed.

(** ** The further results at the concrete run *)

Lemma get_after_run_witness :
  0 < 8
  ∧ HashTable.__init__ 8 = Ok demo_table
  ∧ HashTable.get int_hash 9 (run int_hash demo_calls demo_table)
    = (lookup_outcome (last_value 9 demo_calls None),
       run int_hash demo_calls demo_table).
Proof.
  assert (0 < 8) as Hpos by lia.
  assert (HashTable.__init__ 8 = Ok demo_table) as Hinit
    by (vm_compute; reflexivity).
  split; [exact Hpos|]. split; [exact Hinit|].
  exact (get_after_run int_hash 8 demo_table demo_calls 9 Hpos Hinit).
Defined.

Lemma other_keys_untouched_witness :
  9 ≠ 1
  ∧ (HashTable.get int_hash 1 (HashTable.set int_hash 9 91 demo_reached).2).1
    = (HashTable.get int_hash 1 demo_reached).1
  ∧ (HashTable.get int_hash 1 (HashTable.delete int_hash 9 demo_reached).2).1
    = (HashTable.get int_hash 1 demo_reached).1
  ∧ (HashTable.contains int_hash 1
       (HashTable.set int_hash 9 91 demo_reached).2).1
    = (HashTable.contains int_hash 1 demo_reached).1
  ∧ (HashTable.contains int_hash 1
       (HashTable.delete int_hash 9 demo_reached).2).1
    = (HashTable.contains int_hash 1 demo_reached).1.
Proof.
  assert (9 ≠ 1) as Hne by lia.
  split; [exact Hne|].
  exact (other_keys_untouched int_hash 1 9 91 demo_reached Hne).
Defined.

Lemma items_iff_get_witness :
  HashTable.__init__ 8 = Ok demo_table
  ∧ ∃ its,
      HashTable.items (run int_hash demo_calls demo_table)
      = (Ok its, run int_hash demo_calls demo_table)
      ∧ ((9, 90) ∈ its
         ↔ HashTable.get int_hash 9 (run int_hash demo_calls demo_table)
           = (Ok 90, run int_hash demo_calls demo_table)).
Proof.
  assert (HashTable.__init__ 8 = Ok demo_table) as Hinit
    by (vm_compute; reflexivity).
  split; [exact Hinit|].
  exact (items_iff_get int_hash 8 demo_table demo_calls 9 90 Hinit).
Defined.

Lemma keys_iff_contains_witness :
  HashTable.__init__ 8 = Ok demo_table
  ∧ ∃ ks,
      HashTable.keys (run int_hash demo_calls demo_table)
      = (Ok ks, run int_hash demo_calls demo_table)
      ∧ (9 ∈ ks
         ↔ HashTable.contains int_hash 9 (run int_hash demo_calls demo_table)
           = (Ok true, run int_hash demo_calls demo_table)).
Proof.
  assert (HashTable.__init__ 8 = Ok demo_table) as Hinit
    by (vm_compute; reflexivity).
  split; [exact Hinit|].
  exact (keys_iff_contains int_hash 8 demo_table demo_calls 9 Hinit).
Defined.

Lemma failed_call_no_mutation_witness :
  (call int_hash (OpDelete 3) demo_reached).1 = Raise KeyError
  ∧ (call int_hash (OpDelete 3) demo_reached).2 = demo_reached
  ∧ (KeyError = KeyError ∨ KeyError = ZeroDivisionError).
Proof.
  assert ((call int_hash (OpDelete 3) demo_reached).1 = Raise KeyError)
    as Hraise by (vm_compute; reflexivity).
  split; [exact Hraise|].
  exact (failed_call_no_mutation int_hash (OpDelete 3) demo_reached KeyError
           Hraise).
Defined.

Lemma delete_then_absent_witness :
  (0 < List.length (HashTable.buckets demo_reached))%nat
  ∧ HashTable.contains int_hash 9 (HashTable.delete int_hash 9 demo_reached).2
    = (Ok false, (HashTable.delete int_hash 9 demo_reached).2)
  ∧ HashTable.get int_hash 9 (HashTable.delete int_hash 9 demo_reached).2
    = (Raise KeyError, (HashTable.delete int_hash 9 demo_reached).2).
Proof.
  assert (0 < List.length (HashTable.buckets demo_reached))%nat as Hn
    by (vm_compute; lia).
  split; [exact Hn|].
  exact (delete_then_absent int_hash 9 demo_reached Hn).
Defined.

Lemma delete_present_witness :
  HashTable.__init__ 8 = Ok demo_table
  ∧ HashTable.contains int_hash 1 (run int_hash demo_calls demo_table)
    = (Ok true, run int_hash demo_calls demo_table)
  ∧ ∃ b l1 value l2 ht' n,
      HashTable.buckets (run int_hash demo_calls demo_table) !! b
      = Some (l1 ++ (1, value) :: l2)
      ∧ HashTable.get int_hash 1 (run int_hash demo_calls demo_table)
        = (Ok value, run int_hash demo_calls demo_table)
      ∧ ht' = HashTable.mk
                (<[b := l1 ++ l2]>
                   (HashTable.buckets (run int_hash demo_calls demo_table)))
      ∧ HashTable.delete int_hash 1 (run int_hash demo_calls demo_table)
        = (Ok tt, ht')
      ∧ HashTable.length (run int_hash demo_calls demo_table)
        = (Ok n, run int_hash demo_calls demo_table)
      ∧ HashTable.length ht' = (Ok (n - 1), ht').
Proof.
  assert (HashTable.__init__ 8 = Ok demo_table) as Hinit
    by (vm_compute; reflexivity).
  assert (HashTable.contains int_hash 1 (run int_hash demo_calls demo_table)
          = (Ok true, run int_hash demo_calls demo_table)) as Hpresent
    by (vm_compute; reflexivity).
  split; [exact Hinit|]. split; [exact Hpresent|].
  exact (delete_present int_hash 8 demo_table demo_calls 1 Hinit Hpresent).
Defined.

Lemma set_length_witness :
  (0 < List.length (HashTable.buckets demo_reached))%nat
  ∧ ∃ present n ht',
      HashTable.contains int_hash 17 demo_reached = (Ok present, demo_reached)
      ∧ HashTable.set int_hash 17 7 demo_reached = (Ok tt, ht')
      ∧ HashTable.length demo_reached = (Ok n, demo_reached)
      ∧ HashTable.length ht' = (Ok (if present then n else n + 1), ht').
Proof.
  assert (0 < List.length (HashTable.buckets demo_reached))%nat as Hn
    by (vm_compute; lia).
  split; [exact Hn|].
  exact (set_length int_hash 17 7 demo_reached Hn).
Defined.

Lemma set_delete_roundtrip_witness :
  HashTable.contains int_hash 17 demo_reached = (Ok false, demo_reached)
  ∧ HashTable.delete int_hash 17 (HashTable.set int_hash 17 7 demo_reached).2
    = (Ok tt, demo_reached).
Proof.
  assert (HashTable.contains int_hash 17 demo_reached
          = (Ok false, demo_reached)) as Habsent
    by (vm_compute; reflexivity).
  split; [exact Habsent|].
  exact (set_delete_roundtrip int_hash 17 7 demo_reached Habsent).
Defined.

Lemma bucket_index_in_range_witness :
  (0 < List.length (HashTable.buckets demo_reached))%nat
  ∧ ∃ i c,
      HashTable._bucket_index int_hash (-1) demo_reached
      = (Ok i, demo_reached)
      ∧ 0 ≤ i < Z.of_nat (List.length (HashTable.buckets demo_reached))
      ∧ HashTable.get_bucket int_hash (-1) demo_reached
        = (Ok (Z.to_nat i), demo_reached)
      ∧ HashTable.buckets demo_reached !! Z.to_nat i = Some c.
Proof.
  assert (0 < List.length (HashTable.buckets demo_reached))%nat as Hn
    by (vm_compute; lia).
  split; [exact Hn|].
  exact (bucket_index_in_range int_hash (-1) demo_reached Hn).
Defined.

Lemma keys_after_run_witness :
  0 < 8
  ∧ HashTable.__init__ 8 = Ok demo_table
  ∧ ∃ ks,
      HashTable.keys (run int_hash demo_calls demo_table)
      = (Ok ks, run int_hash demo_calls demo_table)
      ∧ ks ≡ₚ live_keys demo_calls []
      ∧ HashTable.length (run int_hash demo_calls demo_table)
        = (Ok (Z.of_nat (List.length (live_keys demo_calls []))),
           run int_hash demo_calls demo_table).
Proof.
  assert (0 < 8) as Hpos by lia.
  assert (HashTable.__init__ 8 = Ok demo_table) as Hinit
    by (vm_compute; reflexivity).
  split; [exact Hpos|]. split; [exact Hinit|].
  exact (keys_after_run int_hash 8 demo_table demo_calls Hpos Hinit).
Defined.

Lemma text_of_empty_witness :
  HashTable.items demo_table = (Ok [], demo_table)
  ∧ HashTable.__str__ str_int str_int demo_table = (Ok "{}", demo_table)
  ∧ HashTable.__repr__ str_int str_int demo_table
    = (Ok "HashTable([])", demo_table).
Proof.
  assert (HashTable.items demo_table = (Ok [], demo_table)) as Hempty
    by (vm_compute; reflexivity).
  split; [exact Hempty|].
  exact (text_of_empty str_int str_int demo_table Hempty).
Defined.
